(** * RISC-V emulator: memory segments and the disassembler loop

    A shallow embedding of [mem/seg.go] (exceptions, attributes, [Chunk],
    [Empty]) and of [rv.Disassemble], followed by the properties of the
    memory fault model and of the first-match decoder.

    Conventions.  A Go [uint] is a [Z] in [0, 2^64) (the emulator's
    [maxAdr = (1 << 64) - 1] needs a 64-bit [uint]) and every [uint]
    addition or subtraction of the source is written with [wrap].  A
    [uintN] is a [Z] in [0, 2^N).  A Go run-time panic (slice or index out
    of range) is the [None] of [option]; a call that returns is [Some]. *)

From Stdlib Require Import ZArith Lia Bool Ascii.
From stdpp Require Import base option list gmap strings.

Local Open Scope Z_scope.

(* ===================================================================== *)
(** ** Machine integers *)

Definition uintBits : Z := 64.

(** Wrap-around of [uint] arithmetic. *)
Definition wrap (x : Z) : Z := x mod 2 ^ uintBits.

(** Largest value of an unsigned integer of [bits] bits
    ([math.MaxUint8] ... [math.MaxUint64]). *)
Definition MaxUint (bits : Z) : Z := 2 ^ bits - 1.

(** Access widths of the [Segment] interface. *)
Inductive Width : Set := W8 | W16 | W32 | W64.

Definition widthBytes (w : Width) : Z :=
  match w with W8 => 1 | W16 => 2 | W32 => 4 | W64 => 8 end.

Definition widthBits (w : Width) : Z := 8 * widthBytes w.

(* ===================================================================== *)
(** ** Exceptions and attributes *)

Definition Exception := Z.

Definition ExAlign : Exception := Z.shiftl 1 0. (* misaligned read/write *)
Definition ExRead  : Exception := Z.shiftl 1 1. (* can't read this memory *)
Definition ExWrite : Exception := Z.shiftl 1 2. (* can't write this memory *)
Definition ExEmpty : Exception := Z.shiftl 1 3. (* no memory at this address *)
Definition ExExec  : Exception := Z.shiftl 1 4. (* can't read instructions *)

Definition Attribute := Z.

Definition AttrR : Attribute := Z.shiftl 1 0.
Definition AttrW : Attribute := Z.shiftl 1 1.
Definition AttrX : Attribute := Z.shiftl 1 2.
Definition AttrRW : Attribute := Z.lor AttrR AttrW.
Definition AttrRX : Attribute := Z.lor AttrR AttrX.
Definition AttrRWX : Attribute := Z.lor (Z.lor AttrR AttrW) AttrX.

(** [e & flag != 0] *)
Definition has (flag e : Z) : bool := negb (Z.land e flag =? 0).

Definition wrException (adr : Z) (attr : Attribute) (align : Z) : Exception :=
  let ex := 0 in
  let ex := if Z.land attr AttrW =? 0 then Z.lor ex ExWrite else ex in
  let ex := if negb (Z.land adr (wrap (align - 1)) =? 0)
            then Z.lor ex ExAlign else ex in
  ex.

Definition rdException (adr : Z) (attr : Attribute) (align : Z) : Exception :=
  let ex := 0 in
  let ex := if Z.land attr AttrR =? 0 then Z.lor ex ExRead else ex in
  let ex := if negb (Z.land adr (wrap (align - 1)) =? 0)
            then Z.lor ex ExAlign else ex in
  ex.

(** rv32c has mixed 32/16 bit instruction streams, so 32-bit reads are
    allowed on 2 byte address boundaries. *)
Definition rdInsException (adr : Z) (attr : Attribute) : Exception :=
  let ex := rdException adr attr 2 in
  let ex := if Z.land attr AttrX =? 0 then Z.lor ex ExExec else ex in
  ex.

(* ===================================================================== *)
(** ** Go slices and [encoding/binary.LittleEndian] *)

(** [s[off:]]: panics when [off > len(s)]. *)
Definition sliceFrom (s : list Z) (off : Z) : option (list Z) :=
  if off <=? Z.of_nat (length s) then Some (drop (Z.to_nat off) s) else None.

(** [s[off]]: panics when [off >= len(s)]. *)
Definition index (s : list Z) (off : Z) : option Z := s !! Z.to_nat off.

(** [byte(v)]: conversion to [uint8] keeps the low eight bits. *)
Definition byte (v : Z) : Z := Z.land v 255.

Definition Uint16 (b : list Z) : option Z :=
  match b with
  | b0 :: b1 :: _ => Some (Z.lor b0 (Z.shiftl b1 8))
  | _ => None
  end.

Definition Uint32 (b : list Z) : option Z :=
  match b with
  | b0 :: b1 :: b2 :: b3 :: _ =>
      Some (Z.lor (Z.lor (Z.lor b0 (Z.shiftl b1 8)) (Z.shiftl b2 16))
                  (Z.shiftl b3 24))
  | _ => None
  end.

Definition Uint64 (b : list Z) : option Z :=
  match b with
  | b0 :: b1 :: b2 :: b3 :: b4 :: b5 :: b6 :: b7 :: _ =>
      Some (Z.lor (Z.lor (Z.lor (Z.lor (Z.lor (Z.lor (Z.lor
              b0 (Z.shiftl b1 8)) (Z.shiftl b2 16)) (Z.shiftl b3 24))
              (Z.shiftl b4 32)) (Z.shiftl b5 40)) (Z.shiftl b6 48))
              (Z.shiftl b7 56))
  | _ => None
  end.

(** The [Put] functions return the slice after the stores. *)
Definition PutUint16 (b : list Z) (v : Z) : option (list Z) :=
  match b with
  | _ :: _ :: rest => Some (byte v :: byte (Z.shiftr v 8) :: rest)
  | _ => None
  end.

Definition PutUint32 (b : list Z) (v : Z) : option (list Z) :=
  match b with
  | _ :: _ :: _ :: _ :: rest =>
      Some (byte v :: byte (Z.shiftr v 8) :: byte (Z.shiftr v 16)
              :: byte (Z.shiftr v 24) :: rest)
  | _ => None
  end.

Definition PutUint64 (b : list Z) (v : Z) : option (list Z) :=
  match b with
  | _ :: _ :: _ :: _ :: _ :: _ :: _ :: _ :: rest =>
      Some (byte v :: byte (Z.shiftr v 8) :: byte (Z.shiftr v 16)
              :: byte (Z.shiftr v 24) :: byte (Z.shiftr v 32)
              :: byte (Z.shiftr v 40) :: byte (Z.shiftr v 48)
              :: byte (Z.shiftr v 56) :: rest)
  | _ => None
  end.

(** The value of a byte sequence read least significant byte first, and
    the [n] low bytes of a value in that order: what [UintN] computes and
    what [PutUintN] stores, for every [N]. *)
Fixpoint leValue (b : list Z) : Z :=
  match b with
  | [] => 0
  | b0 :: rest => Z.lor b0 (Z.shiftl (leValue rest) 8)
  end.

Fixpoint leBytes (n : nat) (v : Z) : list Z :=
  match n with
  | O => []
  | S k => byte v :: leBytes k (Z.shiftr v 8)
  end.

(* ===================================================================== *)
(** ** Chunk: a contiguous chunk of memory *)

Record Chunk : Type := mkChunk {
  c_attr : Attribute;      (* bitmask of attributes *)
  c_start : Z;             (* address range *)
  c_end : Z;
  c_mem : list Z           (* memory array *)
}.

(** Allocates the memory and sets it to all ones. *)
Definition NewChunk (start size : Z) (attr : Attribute) : Chunk :=
  {| c_attr := attr;
     c_start := start;
     c_end := wrap (wrap (start + size) - 1);
     c_mem := replicate (Z.to_nat size) 255 |}.

(** The slice [m.mem[adr-m.start:]] shares its array with [m.mem]: after a
    store through it the chunk's memory is the untouched prefix followed by
    the updated slice. *)
Definition storeBack (m : Chunk) (off : Z) (b : list Z) : Chunk :=
  {| c_attr := c_attr m; c_start := c_start m; c_end := c_end m;
     c_mem := take (Z.to_nat off) (c_mem m) ++ b |}.

Module Chunk.

Definition In (m : Chunk) (adr size : Z) : bool :=
  let end_ := wrap (wrap (adr + size) - 1) in
  (c_start m <=? adr) && (end_ <=? c_end m).

Definition RdIns (m : Chunk) (adr : Z) : option (Z * Exception) :=
  b ← sliceFrom (c_mem m) (wrap (adr - c_start m));
  v ← Uint32 b;
  Some (v, rdInsException adr (c_attr m)).

Definition Rd64 (m : Chunk) (adr : Z) : option (Z * Exception) :=
  b ← sliceFrom (c_mem m) (wrap (adr - c_start m));
  v ← Uint64 b;
  Some (v, rdException adr (c_attr m) 8).

Definition Rd32 (m : Chunk) (adr : Z) : option (Z * Exception) :=
  b ← sliceFrom (c_mem m) (wrap (adr - c_start m));
  v ← Uint32 b;
  Some (v, rdException adr (c_attr m) 4).

Definition Rd16 (m : Chunk) (adr : Z) : option (Z * Exception) :=
  b ← sliceFrom (c_mem m) (wrap (adr - c_start m));
  v ← Uint16 b;
  Some (v, rdException adr (c_attr m) 2).

Definition Rd8 (m : Chunk) (adr : Z) : option (Z * Exception) :=
  v ← index (c_mem m) (wrap (adr - c_start m));
  Some (v, rdException adr (c_attr m) 1).

Definition Wr64 (m : Chunk) (adr val : Z) : option (Chunk * Exception) :=
  let off := wrap (adr - c_start m) in
  b ← sliceFrom (c_mem m) off;
  b' ← PutUint64 b val;
  Some (storeBack m off b', wrException adr (c_attr m) 8).

Definition Wr32 (m : Chunk) (adr val : Z) : option (Chunk * Exception) :=
  let off := wrap (adr - c_start m) in
  b ← sliceFrom (c_mem m) off;
  b' ← PutUint32 b val;
  Some (storeBack m off b', wrException adr (c_attr m) 4).

Definition Wr16 (m : Chunk) (adr val : Z) : option (Chunk * Exception) :=
  let off := wrap (adr - c_start m) in
  b ← sliceFrom (c_mem m) off;
  b' ← PutUint16 b val;
  Some (storeBack m off b', wrException adr (c_attr m) 2).

Definition Wr8 (m : Chunk) (adr val : Z) : option (Chunk * Exception) :=
  let off := wrap (adr - c_start m) in
  _ ← index (c_mem m) off;
  Some ({| c_attr := c_attr m; c_start := c_start m; c_end := c_end m;
           c_mem := <[Z.to_nat off := val]> (c_mem m) |},
        wrException adr (c_attr m) 1).

End Chunk.

(* ===================================================================== *)
(** ** Empty: an empty memory region *)

Record Empty : Type := mkEmpty {
  e_attr : Attribute;      (* bitmask of attributes *)
  e_start : Z;             (* address range *)
  e_end : Z
}.

Definition NewEmpty (start size : Z) (attr : Attribute) : Empty :=
  {| e_attr := attr;
     e_start := start;
     e_end := wrap (wrap (start + size) - 1) |}.

Module Empty.

Definition In (m : Empty) (adr size : Z) : bool :=
  let end_ := wrap (wrap (adr + size) - 1) in
  (e_start m <=? adr) && (end_ <=? e_end m).

Definition RdIns (m : Empty) (adr : Z) : option (Z * Exception) :=
  Some (MaxUint 32, Z.lor (rdInsException adr (e_attr m)) ExEmpty).

Definition Rd64 (m : Empty) (adr : Z) : option (Z * Exception) :=
  Some (MaxUint 64, Z.lor (rdException adr (e_attr m) 8) ExEmpty).

Definition Rd32 (m : Empty) (adr : Z) : option (Z * Exception) :=
  Some (MaxUint 32, Z.lor (rdException adr (e_attr m) 4) ExEmpty).

Definition Rd16 (m : Empty) (adr : Z) : option (Z * Exception) :=
  Some (MaxUint 16, Z.lor (rdException adr (e_attr m) 2) ExEmpty).

Definition Rd8 (m : Empty) (adr : Z) : option (Z * Exception) :=
  Some (MaxUint 8, Z.lor (rdException adr (e_attr m) 1) ExEmpty).

Definition Wr64 (m : Empty) (adr val : Z) : option (Empty * Exception) :=
  Some (m, Z.lor (wrException adr (e_attr m) 8) ExEmpty).

Definition Wr32 (m : Empty) (adr val : Z) : option (Empty * Exception) :=
  Some (m, Z.lor (wrException adr (e_attr m) 4) ExEmpty).

Definition Wr16 (m : Empty) (adr val : Z) : option (Empty * Exception) :=
  Some (m, Z.lor (wrException adr (e_attr m) 2) ExEmpty).

Definition Wr8 (m : Empty) (adr val : Z) : option (Empty * Exception) :=
  Some (m, Z.lor (wrException adr (e_attr m) 1) ExEmpty).

End Empty.

(* ===================================================================== *)
(** ** Segment: the interface, as the closed union of its two
       implementations *)

Inductive Segment : Type :=
  | SChunk (c : Chunk)
  | SEmpty (e : Empty).

Module Segment.

Definition attr (s : Segment) : Attribute :=
  match s with SChunk c => c_attr c | SEmpty e => e_attr e end.

Definition isEmpty (s : Segment) : bool :=
  match s with SChunk _ => false | SEmpty _ => true end.

Definition In (s : Segment) (adr size : Z) : bool :=
  match s with
  | SChunk c => Chunk.In c adr size
  | SEmpty e => Empty.In e adr size
  end.

Definition RdIns (s : Segment) (adr : Z) : option (Z * Exception) :=
  match s with
  | SChunk c => Chunk.RdIns c adr
  | SEmpty e => Empty.RdIns e adr
  end.

(** [Rd8], [Rd16], [Rd32], [Rd64], selected by the width. *)
Definition Rd (w : Width) (s : Segment) (adr : Z) : option (Z * Exception) :=
  match s, w with
  | SChunk c, W8 => Chunk.Rd8 c adr
  | SChunk c, W16 => Chunk.Rd16 c adr
  | SChunk c, W32 => Chunk.Rd32 c adr
  | SChunk c, W64 => Chunk.Rd64 c adr
  | SEmpty e, W8 => Empty.Rd8 e adr
  | SEmpty e, W16 => Empty.Rd16 e adr
  | SEmpty e, W32 => Empty.Rd32 e adr
  | SEmpty e, W64 => Empty.Rd64 e adr
  end.

(** [Wr8], [Wr16], [Wr32], [Wr64], selected by the width; the segment
    after the call is returned with the exception. *)
Definition Wr (w : Width) (s : Segment) (adr val : Z)
  : option (Segment * Exception) :=
  match s, w with
  | SChunk c, W8 => prod_map SChunk id <$> Chunk.Wr8 c adr val
  | SChunk c, W16 => prod_map SChunk id <$> Chunk.Wr16 c adr val
  | SChunk c, W32 => prod_map SChunk id <$> Chunk.Wr32 c adr val
  | SChunk c, W64 => prod_map SChunk id <$> Chunk.Wr64 c adr val
  | SEmpty e, W8 => prod_map SEmpty id <$> Empty.Wr8 e adr val
  | SEmpty e, W16 => prod_map SEmpty id <$> Empty.Wr16 e adr val
  | SEmpty e, W32 => prod_map SEmpty id <$> Empty.Wr32 e adr val
  | SEmpty e, W64 => prod_map SEmpty id <$> Empty.Wr64 e adr val
  end.

End Segment.

(* ===================================================================== *)
(** ** The address space *)

(** Modelled from the spec: the address space ([mem.Memory]) is not part of
    the sources at hand.  It is an ordered collection of segments; an access
    goes to the first segment whose containment test succeeds for the
    address and the size of the access, and when there is none it is
    answered by an always-empty segment ([noMemory]), which yields the
    sentinel value and the [Empty] fault together with the alignment and
    permission faults of that segment. *)
Record AddressSpace : Type := mkAddressSpace {
  segments : list Segment;
  noMemory : Empty
}.

Module AddressSpace.

(** The first segment, with its position, that contains the access. *)
Definition lookupSegment (m : AddressSpace) (adr size : Z)
  : option (nat * Segment) :=
  list_find (λ s, Segment.In s adr size = true) (segments m).

Definition route (m : AddressSpace) (adr size : Z) : Segment :=
  match lookupSegment m adr size with
  | Some (_, s) => s
  | None => SEmpty (noMemory m)
  end.

Definition Rd (w : Width) (m : AddressSpace) (adr : Z)
  : option (Z * Exception) :=
  Segment.Rd w (route m adr (widthBytes w)) adr.

Definition RdIns (m : AddressSpace) (adr : Z) : option (Z * Exception) :=
  Segment.RdIns (route m adr 4) adr.

(** A write goes to the routed segment, which takes its place in the
    collection afterwards. *)
Definition Wr (w : Width) (m : AddressSpace) (adr val : Z)
  : option (AddressSpace * Exception) :=
  match lookupSegment m adr (widthBytes w) with
  | Some (i, s) =>
      '(s', ex) ← Segment.Wr w s adr val;
      Some ({| segments := <[i := s']> (segments m);
               noMemory := noMemory m |}, ex)
  | None =>
      '(_, ex) ← Segment.Wr w (SEmpty (noMemory m)) adr val;
      Some (m, ex)
  end.

End AddressSpace.

(* ===================================================================== *)
(** ** The disassembler (package rv) *)

(** The decode functions of an instruction; [da] renders the instruction
    and a comment from the mnemonic, the address and the word. *)
Record decoder : Type := mkDecoder {
  da : string → Z → Z → string * string
}.

(** An entry of the instruction table. *)
Record insInfo : Type := mkInsInfo {
  mneumonic : string;
  val : Z;
  mask : Z;
  decode : decoder
}.

Record ISA : Type := mkISA {
  name : string;
  instruction : list insInfo
}.

Definition daNone (mneumonic : string) (adr ins : Z) : string * string :=
  (mneumonic, "TODO"%string).

(** [SymbolTable] maps an address to a symbol; [None] is the nil map. *)
Definition SymbolTable : Type := option (gmap Z string).

Record Disassembly : Type := mkDisassembly {
  Dump : string;          (* address and memory bytes *)
  Symbol : string;        (* symbol for the address (if any) *)
  Instruction : string;   (* instruction decode *)
  Comment : string;       (* useful comment *)
  N : Z                   (* length in bytes of decode *)
}.

Definition hexDigit (d : Z) : Ascii.ascii :=
  let c := String.get (Z.to_nat d) "0123456789abcdef" in
  default (Ascii.ascii_of_nat 63) c.

(** The last [digits] hexadecimal digits of [v], in front of [acc]. *)
Fixpoint hex (digits : nat) (v : Z) (acc : string) : string :=
  match digits with
  | O => acc
  | S k => hex k (v / 16) (String (hexDigit (v mod 16)) acc)
  end.

(** [fmt.Sprintf("%08x: %08x", adr, ins)] on two [uint32]. *)
Definition daDump (adr ins : Z) : string :=
  (hex 8 adr "" +:+ ": " +:+ hex 8 ins "")%string.

Definition daSymbol (adr : Z) (st : SymbolTable) : string :=
  match st with
  | Some t => default ""%string (t !! adr)
  | None => ""%string
  end.

Definition daInstruction (adr ins : Z) : string * string :=
  (""%string, ""%string).

(** An entry matches a word: [ins&ii.mask == ii.val]. *)
Definition matches (ins : Z) (ii : insInfo) : bool :=
  Z.land ins (mask ii) =? val ii.

(** The loop of [Disassemble] over the instruction table: the two strings
    start empty and the loop leaves at the first entry that matches. *)
Fixpoint scan (table : list insInfo) (adr ins : Z) : string * string :=
  match table with
  | [] => (""%string, ""%string)
  | ii :: rest =>
      if matches ins ii then da (decode ii) (mneumonic ii) adr ins
      else scan rest adr ins
  end.

(** [unsafe.Sizeof(ins)] for the [uint32] word. *)
Definition sizeofIns : Z := 4.

Section Disassembler.

(** [m.Mem.Read32]: the memory of the CPU is not part of the sources at
    hand; the disassembler uses it only to fetch the 32-bit word. *)
Variable Read32 : Z → Z.

(** The [isa] field of the CPU. *)
Variable isa : ISA.

Definition Disassemble (adr : Z) (st : SymbolTable) : Disassembly :=
  let ins := Read32 adr in
  let '(instruction_, comment) := scan (instruction isa) adr ins in
  {| Dump := daDump adr ins;
     Symbol := daSymbol adr st;
     Instruction := instruction_;
     Comment := comment;
     N := sizeofIns |}.

End Disassembler.

(* ===================================================================== *)
(** ** The ISA registry *)

(** Modelled from the spec: [NewISA] and [ISA.Add] are not part of the
    sources at hand (only the calls in the disassembler's [main] are).
    Two entries conflict when their values agree on the bits that both
    masks constrain. *)
Definition conflict (a b : insInfo) : bool :=
  let common_mask := Z.land (mask a) (mask b) in
  Z.land (val a) common_mask =? Z.land (val b) common_mask.

Inductive AddError : Set := ConflictError.

(** Modelled from the spec: [NewISA] creates an empty named instruction
    set. *)
Definition NewISA (name_ : string) : ISA :=
  {| name := name_; instruction := [] |}.

(** Modelled from the spec: the entries are appended one by one in
    argument order, each one after it was checked pairwise against the
    full table existing at that point; [None] is a conflict. *)
Fixpoint addEntries (table new : list insInfo) : option (list insInfo) :=
  match new with
  | [] => Some table
  | e :: rest =>
      if existsb (conflict e) table then None
      else addEntries (table ++ [e]) rest
  end.

(** Modelled from the spec: [ISA.Add] of the extension sets [module], in
    argument order.  The result is the ISA after the call and the error;
    nothing is committed on a conflict. *)
Definition Add (isa : ISA) (module : list (list insInfo))
  : ISA * option AddError :=
  match addEntries (instruction isa) (concat module) with
  | Some table => ({| name := name isa; instruction := table |}, None)
  | None => (isa, Some ConflictError)
  end.

(* ===================================================================== *)
(** ** The fault model in the words of the specification *)

(** The bit of a fault that is reported when its condition is violated. *)
Definition flag (violated : bool) (e : Exception) : Exception :=
  if violated then e else 0.

(** [address mod width_in_bytes != 0] *)
Definition misaligned (adr size : Z) : bool := negb (adr mod size =? 0).

(** The attribute mask does not grant the permission. *)
Definition lacks (perm attr : Attribute) : bool := Z.land attr perm =? 0.

(** The OR of the violated conditions of a data read, of a write and of an
    instruction fetch; [absent] says that there is no memory behind the
    address. *)
Definition readFaults (adr size : Z) (attr : Attribute) (absent : bool)
  : Exception :=
  Z.lor (Z.lor (flag (misaligned adr size) ExAlign)
               (flag (lacks AttrR attr) ExRead))
        (flag absent ExEmpty).

Definition writeFaults (adr size : Z) (attr : Attribute) (absent : bool)
  : Exception :=
  Z.lor (Z.lor (flag (misaligned adr size) ExAlign)
               (flag (lacks AttrW attr) ExWrite))
        (flag absent ExEmpty).

Definition fetchFaults (adr : Z) (attr : Attribute) (absent : bool)
  : Exception :=
  Z.lor (Z.lor (Z.lor (flag (misaligned adr 2) ExAlign)
                      (flag (lacks AttrR attr) ExRead))
               (flag (lacks AttrX attr) ExExec))
        (flag absent ExEmpty).

(** The bytes that a write of the width leaves in memory: [Wr8] stores the
    [uint8] itself, the others store through [PutUintN]. *)
Definition storedBytes (w : Width) (v : Z) : list Z :=
  match w with
  | W8 => [v]
  | W16 => leBytes 2 v
  | W32 => leBytes 4 v
  | W64 => leBytes 8 v
  end.

(** Offset of an address in the memory array of a chunk: [adr-m.start]. *)
Definition offset (m : Chunk) (adr : Z) : Z := wrap (adr - c_start m).

(** The accessed bytes lie in the memory array. *)
Definition inArray (m : Chunk) (adr size : Z) : Prop :=
  offset m adr + size ≤ Z.of_nat (length (c_mem m)).

#[global] Instance inArray_dec m adr size : Decision (inArray m adr size) :=
  decide (offset m adr + size ≤ Z.of_nat (length (c_mem m))).

(** The number of bytes of a width, and the bytes of the memory array that
    an access of [n] bytes at the address covers. *)
Definition widthNat (w : Width) : nat := Z.to_nat (widthBytes w).

Definition bytesAt (c : Chunk) (adr : Z) (n : nat) : list Z :=
  take n (drop (Z.to_nat (offset c adr)) (c_mem c)).

(** The chunk after [bytes] were stored at the address. *)
Definition withBytes (c : Chunk) (adr : Z) (bytes : list Z) : Chunk :=
  let off := Z.to_nat (offset c adr) in
  {| c_attr := c_attr c; c_start := c_start c; c_end := c_end c;
     c_mem := take off (c_mem c) ++ bytes
                ++ drop (off + length bytes) (c_mem c) |}.

(* ===================================================================== *)
(** ** Well-formed memory *)

(** Every element of the memory array of a chunk is a [uint8]. *)
Definition bytesOK (c : Chunk) : Prop :=
  Forall (λ b, 0 ≤ b < 256) (c_mem c).

(* ===================================================================== *)
(** ** Exception.String *)

(** [strings.Join(elems, sep)] *)
Fixpoint Join (elems : list string) (sep : string) : string :=
  match elems with
  | [] => ""
  | a :: rest =>
      match rest with
      | [] => a
      | _ => a +:+ sep +:+ Join rest sep
      end
  end.

(** [func (e Exception) String() string] *)
Definition Exception_String (e : Exception) : string :=
  let s := [] in
  let s := if has ExAlign e then s ++ ["align"%string] else s in
  let s := if has ExRead e then s ++ ["read"%string] else s in
  let s := if has ExWrite e then s ++ ["write"%string] else s in
  let s := if has ExEmpty e then s ++ ["empty"%string] else s in
  let s := if has ExExec e then s ++ ["exec"%string] else s in
  Join s ",".

(* ===================================================================== *)
(** ** Library functions of the dump loader *)

Definition byteOf (a : Ascii.ascii) : Z := Z.of_N (Ascii.N_of_ascii a).

(** Wrap-around of [uint64] arithmetic. *)
Definition wrap64 (x : Z) : Z := x mod 2 ^ 64.

Definition maxUint64 : Z := 2 ^ 64 - 1.

(** The two errors of [strconv]: [ErrSyntax] and [ErrRange]. *)
Inductive NumError : Set := ErrSyntax | ErrRange.

(** [lower(c)]: [c | ('x' - 'X')] *)
Definition lower (c : Z) : Z := Z.lor c 32.

(** The value of a byte as a digit, as the switch of [ParseUint] has it:
    a decimal digit, or a letter for 10 and more. *)
Definition digitOf (c : Z) : option Z :=
  if (48 <=? c) && (c <=? 57) then Some (c - 48)
  else if (97 <=? lower c) && (lower c <=? 122) then Some (lower c - 97 + 10)
  else None.

(** The loop of [strconv.ParseUint] over the bytes of the string, for a
    base from 2 to 36 that is given explicitly (underscores are a syntax
    error then); [n] is the number read so far. *)
Fixpoint parseDigits (base cutoff maxVal : Z) (s : string) (n : Z)
  : Z * option NumError :=
  match s with
  | EmptyString => (n, None)
  | String a rest =>
      match digitOf (byteOf a) with
      | None => (0, Some ErrSyntax)
      | Some d =>
          if base <=? d then (0, Some ErrSyntax)
          else if cutoff <=? n then (maxVal, Some ErrRange)
          else
            let n := wrap64 (n * base) in
            let n1 := wrap64 (n + d) in
            if (n1 <? n) || (maxVal <? n1) then (maxVal, Some ErrRange)
            else parseDigits base cutoff maxVal rest n1
      end
  end.

(** [strconv.ParseUint(s, base, bitSize)] for [2 <= base <= 36] and
    [1 <= bitSize <= 64]: the value and the error, if any. *)
Definition ParseUint (s : string) (base bitSize : Z) : Z * option NumError :=
  match s with
  | EmptyString => (0, Some ErrSyntax)
  | _ =>
      let cutoff := maxUint64 / base + 1 in
      let maxVal := wrap64 (wrap64 (Z.shiftl 1 bitSize) - 1) in
      parseDigits base cutoff maxVal s 0
  end.

(** [strings.Trim(s, cutset)] for a cutset of ASCII characters: the
    characters of the cutset are removed at the right end and at the left
    end. *)
Fixpoint trimLeft (cutset : list Ascii.ascii) (s : string) : string :=
  match s with
  | EmptyString => EmptyString
  | String a rest =>
      if bool_decide (a ∈ cutset) then trimLeft cutset rest else s
  end.

Fixpoint trimRight (cutset : list Ascii.ascii) (s : string) : string :=
  match s with
  | EmptyString => EmptyString
  | String a rest =>
      match trimRight cutset rest with
      | EmptyString =>
          if bool_decide (a ∈ cutset) then EmptyString
          else String a EmptyString
      | r => String a r
      end
  end.

Definition Trim (s : string) (cutset : list Ascii.ascii) : string :=
  trimLeft cutset (trimRight cutset s).

(* ===================================================================== *)
(** ** The dump loader *)

(** The error of [loadDump]: the error of [ioutil.ReadFile], given by its
    text, or the line number with the error of the number parser ("error
    at line %d: %s"), or the line number of an instruction of unknown
    length ("unrecognised instruction length at line %d"). *)
Inductive LoadError : Set :=
  | ErrReadFile (err : string)
  | ErrorAtLine (line : Z) (cause : NumError)
  | ErrInsLength (line : Z).

(** What [ioutil.ReadFile(filename)] returns: an error, or the contents
    of the file, given here by the fields ([strings.Fields]) of each of
    its lines ([strings.Split(string(x), "\n")]). *)
Inductive File : Type :=
  | ReadError (err : string)
  | Contents (lines : list (list string)).

(** What a run of the loader leaves: the memory after a return without
    error, the memory and the error after a return with an error, or a
    panic. *)
Inductive Load (M : Type) : Type :=
  | Loaded (m : M)
  | Failed (m : M) (e : LoadError)
  | Panicked.

Arguments Loaded {M} m.
Arguments Failed {M} m e.
Arguments Panicked {M}.

(** The fields of the reference disassembly: those up to the first one
    that starts with '#' or '<'; [x[0]] panics on an empty field. *)
Fixpoint reference (fields : list string) (s : list string)
  : option (list string) :=
  match fields with
  | [] => Some s
  | x :: rest =>
      match x with
      | EmptyString => None
      | String c _ =>
          if bool_decide (c = "#"%char ∨ c = "<"%char) then Some s
          else reference rest (s ++ [x])
      end
  end.

Section LoadDump.

(** [mem.Memory] and the four methods that the loader calls on it are not
    part of the sources at hand; a call returns the memory after it. *)
Variable Memory : Type.
Variable AddSymbol : Memory → Z → string → Memory.
Variable Wr16 : Memory → Z → Z → Memory.
Variable Wr32 : Memory → Z → Z → Memory.
Variable AddDisassembly : Memory → Z → string → Memory.

(** [uint32(x)], [uint16(x)] *)
Definition uint32 (x : Z) : Z := x mod 2 ^ 32.
Definition uint16 (x : Z) : Z := x mod 2 ^ 16.

(** The body of the loop of [loadDump] for line [i], whose fields
    ([strings.Fields(line[i])]) are [field]. *)
Definition loadLine (i : Z) (field : list string) (m : Memory)
  : Load Memory :=
  match field with
  | [] | [_] => Loaded m                          (* n <= 1: continue *)
  | f0 :: f1 :: rest =>
      (* address *)
      match ParseUint (Trim f0 [":"%char]) 16 32 with
      | (_, Some err) => Failed m (ErrorAtLine (i + 1) err)
      | (adr, None) =>
          match rest with
          | [] =>
              (* address + symbol *)
              Loaded (AddSymbol m (uint32 adr)
                        (Trim f1 ["<"%char; ">"%char; ":"%char]))
          | _ =>
              let insLength := Z.of_nat (String.length f1) in
              let written :=
                if insLength =? 4 then
                  (* 16-bit instruction *)
                  match ParseUint f1 16 16 with
                  | (_, Some err) => Failed m (ErrorAtLine (i + 1) err)
                  | (ins, None) => Loaded (Wr16 m (uint32 adr) (uint16 ins))
                  end
                else if insLength =? 8 then
                  (* 32-bit instruction *)
                  match ParseUint f1 16 32 with
                  | (_, Some err) => Failed m (ErrorAtLine (i + 1) err)
                  | (ins, None) => Loaded (Wr32 m (uint32 adr) (uint32 ins))
                  end
                else Failed m (ErrInsLength (i + 1)) in
              match written with
              | Loaded m =>
                  (* the reference disassembly *)
                  match reference rest [] with
                  | Some s =>
                      Loaded (AddDisassembly m (uint32 adr) (Join s " "))
                  | None => Panicked
                  end
              | other => other
              end
          end
      end
  end.

(** The loop of [loadDump] from line [i] on, over the fields of each
    line; it returns at the first error. *)
Fixpoint loadLines (i : Z) (lines : list (list string)) (m : Memory)
  : Load Memory :=
  match lines with
  | [] => Loaded m
  | field :: rest =>
      match loadLine i field m with
      | Loaded m' => loadLines (i + 1) rest m'
      | other => other
      end
  end.

(** [loadDump]: the error of the read is returned before any line is
    looked at; otherwise the lines are loaded from the first one on. *)
Definition loadDump (m : Memory) (file : File) : Load Memory :=
  match file with
  | ReadError err => Failed m (ErrReadFile err)
  | Contents lines => loadLines 0 lines m
  end.

End LoadDump.

(** The line number that an error of the loader carries, if any. *)
Definition errorLine (e : LoadError) : option Z :=
  match e with
  | ErrReadFile _ => None
  | ErrorAtLine line _ | ErrInsLength line => Some line
  end.

(** A field that the reference disassembly keeps: it is not empty and
    does not start with '#' or '<'; and a field that ends it. *)
Definition plainField (x : string) : Prop :=
  match x with
  | EmptyString => False
  | String c _ => c ≠ "#"%char ∧ c ≠ "<"%char
  end.

Definition commentField (x : string) : Prop :=
  match x with
  | EmptyString => False
  | String c _ => c = "#"%char ∨ c = "<"%char
  end.

(** Every character of the string has the property. *)
Fixpoint allChars (P : Ascii.ascii → Prop) (s : string) : Prop :=
  match s with
  | EmptyString => True
  | String a rest => P a ∧ allChars P rest
  end.

(* ===================================================================== *)
(** * Properties *)

(** ** Little-endian encoding *)

Lemma length_leBytes n v : length (leBytes n v) = n.
Proof. revert v; induction n as [|n IH]; intros v; simpl; [done|by rewrite IH]. Qed.

Lemma byte_testbit v i : 0 ≤ i → Z.testbit (byte v) i = Z.testbit v i && (i <? 8).
Proof.
  intros Hi. unfold byte. rewrite Z.land_spec.
  change 255 with (Z.ones 8). by rewrite Z.testbit_ones_nonneg by lia.
Qed.

(** Reading back the [n] low bytes of [v] gives the low [8 n] bits of [v]. *)
Lemma leValue_leBytes n v :
  leValue (leBytes n v) = Z.land v (Z.ones (8 * Z.of_nat n)).
Proof.
  revert v. induction n as [|n IH]; intros v.
  - simpl. by rewrite Z.land_0_r.
  - cbn [leBytes leValue]. rewrite IH. apply Z.bits_inj'. intros i Hi.
    rewrite Z.lor_spec, byte_testbit, !Z.land_spec by done.
    rewrite Z.testbit_ones_nonneg by lia.
    destruct (Z.ltb_spec i 8) as [Hlt|Hge].
    + rewrite Z.shiftl_spec_low by lia.
      replace (i <? 8 * Z.of_nat (S n)) with true
        by (symmetry; apply Z.ltb_lt; lia).
      by rewrite orb_false_r.
    + rewrite Z.shiftl_spec by lia. rewrite Z.land_spec, Z.shiftr_spec by lia.
      rewrite Z.testbit_ones_nonneg by lia.
      replace (i - 8 + 8) with i by lia.
      rewrite andb_false_r. simpl. f_equal.
      destruct (Z.ltb_spec (i - 8) (8 * Z.of_nat n)),
        (Z.ltb_spec i (8 * Z.of_nat (S n))); lia || done.
Qed.

Lemma leValue_leBytes_id n v :
  0 ≤ v < 2 ^ (8 * Z.of_nat n) → leValue (leBytes n v) = v.
Proof.
  intros Hv. rewrite leValue_leBytes, Z.land_ones by lia.
  by apply Z.mod_small.
Qed.

Lemma Uint16_leValue b :
  Uint16 b = if decide (2 ≤ length b)%nat
             then Some (leValue (take 2 b)) else None.
Proof.
  destruct b as [|b0 [|b1 r]]; try done.
  cbn. by rewrite Z.lor_0_r.
Qed.

Lemma Uint32_leValue b :
  Uint32 b = if decide (4 ≤ length b)%nat
             then Some (leValue (take 4 b)) else None.
Proof.
  destruct b as [|b0 [|b1 [|b2 [|b3 r]]]]; try done.
  rewrite decide_True by (simpl; lia).
  cbn [Uint32 take leValue]. f_equal.
  rewrite !Z.shiftl_lor, !Z.shiftl_shiftl by lia.
  by rewrite !Z.shiftl_0_l, !Z.lor_0_r, !Z.lor_assoc.
Qed.

Lemma Uint64_leValue b :
  Uint64 b = if decide (8 ≤ length b)%nat
             then Some (leValue (take 8 b)) else None.
Proof.
  destruct b as [|b0 [|b1 [|b2 [|b3 [|b4 [|b5 [|b6 [|b7 r]]]]]]]]; try done.
  rewrite decide_True by (simpl; lia).
  cbn [Uint64 take leValue]. f_equal.
  rewrite !Z.shiftl_lor, !Z.shiftl_shiftl by lia.
  by rewrite !Z.shiftl_0_l, !Z.lor_0_r, !Z.lor_assoc.
Qed.

Lemma PutUint16_leBytes b v :
  PutUint16 b v = if decide (2 ≤ length b)%nat
                  then Some (leBytes 2 v ++ drop 2 b) else None.
Proof. by destruct b as [|b0 [|b1 r]]. Qed.

Lemma PutUint32_leBytes b v :
  PutUint32 b v = if decide (4 ≤ length b)%nat
                  then Some (leBytes 4 v ++ drop 4 b) else None.
Proof. by destruct b as [|b0 [|b1 [|b2 [|b3 r]]]]. Qed.

Lemma PutUint64_leBytes b v :
  PutUint64 b v = if decide (8 ≤ length b)%nat
                  then Some (leBytes 8 v ++ drop 8 b) else None.
Proof. by destruct b as [|b0 [|b1 [|b2 [|b3 [|b4 [|b5 [|b6 [|b7 r]]]]]]]]. Qed.

(** ** What a chunk access computes *)

Lemma wrap_range x : 0 ≤ wrap x < 2 ^ uintBits.
Proof. unfold wrap. apply Z.mod_pos_bound. by vm_compute. Qed.

Lemma offset_nonneg c adr : 0 ≤ offset c adr.
Proof. apply wrap_range. Qed.

Lemma sliceFrom_Some s off :
  0 ≤ off →
  sliceFrom s off = if decide (off ≤ Z.of_nat (length s))
                    then Some (drop (Z.to_nat off) s) else None.
Proof.
  intros _. unfold sliceFrom.
  destruct (Z.leb_spec off (Z.of_nat (length s))); case_decide; done || lia.
Qed.

Lemma chunk_Rd w c adr :
  Segment.Rd w (SChunk c) adr =
    if decide (inArray c adr (widthBytes w))
    then Some (leValue (bytesAt c adr (widthNat w)),
               rdException adr (c_attr c) (widthBytes w))
    else None.
Proof.
  pose proof (offset_nonneg c adr) as Hoff. unfold bytesAt.
  destruct w; cbn [Segment.Rd widthBytes];
    [change (widthNat W8) with 1%nat | change (widthNat W16) with 2%nat
    |change (widthNat W32) with 4%nat | change (widthNat W64) with 8%nat];
    unfold Chunk.Rd8, Chunk.Rd16, Chunk.Rd32, Chunk.Rd64;
    fold (offset c adr).
  - unfold index. destruct (c_mem c !! Z.to_nat (offset c adr)) as [x|] eqn:Hx.
    + apply lookup_lt_Some in Hx as Hlt.
      rewrite decide_True by (unfold inArray; lia).
      cbn. rewrite (drop_S _ _ _ Hx). cbn.
      by rewrite Z.lor_0_r.
    + apply lookup_ge_None in Hx. by rewrite decide_False by (unfold inArray; lia).
  - rewrite sliceFrom_Some by done. case_decide as H1; cbn.
    + rewrite Uint16_leValue, length_drop.
      repeat case_decide; cbn; unfold inArray in *; done || lia.
    + by rewrite decide_False by (unfold inArray; lia).
  - rewrite sliceFrom_Some by done. case_decide as H1; cbn.
    + rewrite Uint32_leValue, length_drop.
      repeat case_decide; cbn; unfold inArray in *; done || lia.
    + by rewrite decide_False by (unfold inArray; lia).
  - rewrite sliceFrom_Some by done. case_decide as H1; cbn.
    + rewrite Uint64_leValue, length_drop.
      repeat case_decide; cbn; unfold inArray in *; done || lia.
    + by rewrite decide_False by (unfold inArray; lia).
Qed.

Lemma chunk_RdIns c adr :
  Segment.RdIns (SChunk c) adr =
    if decide (inArray c adr 4)
    then Some (leValue (bytesAt c adr 4), rdInsException adr (c_attr c))
    else None.
Proof.
  pose proof (offset_nonneg c adr) as Hoff. unfold bytesAt.
  cbn [Segment.RdIns]. unfold Chunk.RdIns. fold (offset c adr).
  rewrite sliceFrom_Some by done. case_decide as H1; cbn.
  - rewrite Uint32_leValue, length_drop.
    repeat case_decide; cbn; unfold inArray in *; done || lia.
  - by rewrite decide_False by (unfold inArray; lia).
Qed.

Lemma length_storedBytes w v : length (storedBytes w v) = widthNat w.
Proof. by destruct w. Qed.

Lemma chunk_Wr w c adr v :
  Segment.Wr w (SChunk c) adr v =
    if decide (inArray c adr (widthBytes w))
    then Some (SChunk (withBytes c adr (storedBytes w v)),
               wrException adr (c_attr c) (widthBytes w))
    else None.
Proof.
  pose proof (offset_nonneg c adr) as Hoff. unfold withBytes.
  destruct w; cbn [Segment.Wr widthBytes storedBytes];
    unfold Chunk.Wr8, Chunk.Wr16, Chunk.Wr32, Chunk.Wr64, storeBack;
    cbn zeta; fold (offset c adr).
  - unfold index. destruct (c_mem c !! Z.to_nat (offset c adr)) as [x|] eqn:Hx.
    + apply lookup_lt_Some in Hx as Hlt.
      rewrite decide_True by (unfold inArray; lia). cbn.
      rewrite insert_take_drop by done.
      by rewrite Nat.add_1_r.
    + apply lookup_ge_None in Hx.
      by rewrite decide_False by (unfold inArray; lia).
  - rewrite sliceFrom_Some by done. case_decide as H1; cbn.
    + rewrite PutUint16_leBytes, length_drop, drop_drop.
      repeat case_decide; cbn; unfold inArray in *; done || lia.
    + by rewrite decide_False by (unfold inArray; lia).
  - rewrite sliceFrom_Some by done. case_decide as H1; cbn.
    + rewrite PutUint32_leBytes, length_drop, drop_drop.
      repeat case_decide; cbn; unfold inArray in *; done || lia.
    + by rewrite decide_False by (unfold inArray; lia).
  - rewrite sliceFrom_Some by done. case_decide as H1; cbn.
    + rewrite PutUint64_leBytes, length_drop, drop_drop.
      repeat case_decide; cbn; unfold inArray in *; done || lia.
    + by rewrite decide_False by (unfold inArray; lia).
Qed.

(** ** The exception masks *)

Lemma land_align adr w :
  Z.land adr (wrap (widthBytes w - 1)) = adr mod widthBytes w.
Proof.
  destruct w; cbn [widthBytes];
    [change (wrap (1 - 1)) with (Z.ones 0)
    |change (wrap (2 - 1)) with (Z.ones 1)
    |change (wrap (4 - 1)) with (Z.ones 2)
    |change (wrap (8 - 1)) with (Z.ones 3)];
    by rewrite Z.land_ones by lia.
Qed.

Ltac by_cases :=
  unfold readFaults, writeFaults, fetchFaults, flag, misaligned, lacks, has;
  repeat match goal with
         | |- context [?a =? 0] =>
             lazymatch a with
             | context [Z.lor] => fail
             | _ => destruct (a =? 0)
             end
         | b : bool |- _ => destruct b
         end;
  try (vm_compute; done).

Lemma rdException_faults adr attr w :
  rdException adr attr (widthBytes w) = readFaults adr (widthBytes w) attr false.
Proof. unfold rdException. rewrite land_align. by_cases. Qed.

Lemma wrException_faults adr attr w :
  wrException adr attr (widthBytes w) = writeFaults adr (widthBytes w) attr false.
Proof. unfold wrException. rewrite land_align. by_cases. Qed.

Lemma rdInsException_faults adr attr :
  rdInsException adr attr = fetchFaults adr attr false.
Proof.
  unfold rdInsException, rdException.
  change 2 with (widthBytes W16). rewrite land_align. cbn [widthBytes].
  by_cases.
Qed.

Lemma readFaults_absent adr size attr :
  Z.lor (readFaults adr size attr false) ExEmpty = readFaults adr size attr true.
Proof. by_cases. Qed.

Lemma writeFaults_absent adr size attr :
  Z.lor (writeFaults adr size attr false) ExEmpty
  = writeFaults adr size attr true.
Proof. by_cases. Qed.

Lemma fetchFaults_absent adr attr :
  Z.lor (fetchFaults adr attr false) ExEmpty = fetchFaults adr attr true.
Proof. by_cases. Qed.

Lemma fetchFaults_absent_eq adr attr :
  Z.lor (rdInsException adr attr) ExEmpty = fetchFaults adr attr true.
Proof. by rewrite rdInsException_faults, fetchFaults_absent. Qed.

(** Each fault of a mask is reported exactly when its own condition is
    violated. *)
Lemma readFaults_bits adr size attr absent :
  let ex := readFaults adr size attr absent in
  has ExAlign ex = misaligned adr size ∧ has ExRead ex = lacks AttrR attr
  ∧ has ExEmpty ex = absent ∧ has ExWrite ex = false ∧ has ExExec ex = false.
Proof. cbn zeta. repeat split; by_cases. Qed.

Lemma writeFaults_bits adr size attr absent :
  let ex := writeFaults adr size attr absent in
  has ExAlign ex = misaligned adr size ∧ has ExWrite ex = lacks AttrW attr
  ∧ has ExEmpty ex = absent ∧ has ExRead ex = false ∧ has ExExec ex = false.
Proof. cbn zeta. repeat split; by_cases. Qed.

Lemma fetchFaults_bits adr attr absent :
  let ex := fetchFaults adr attr absent in
  has ExAlign ex = misaligned adr 2 ∧ has ExRead ex = lacks AttrR attr
  ∧ has ExExec ex = lacks AttrX attr ∧ has ExEmpty ex = absent
  ∧ has ExWrite ex = false.
Proof. cbn zeta. repeat split; by_cases. Qed.

(** The mask that a segment access returns. *)
Lemma segment_Rd_ex w s adr v ex :
  Segment.Rd w s adr = Some (v, ex) →
  ex = readFaults adr (widthBytes w) (Segment.attr s) (Segment.isEmpty s).
Proof.
  destruct s as [c|e]; cbn [Segment.attr Segment.isEmpty].
  - rewrite chunk_Rd. case_decide; [|done]. intros [= _ <-].
    apply rdException_faults.
  - rewrite <- readFaults_absent, <- rdException_faults.
    by destruct w; intros [= _ <-].
Qed.

Lemma segment_RdIns_ex s adr v ex :
  Segment.RdIns s adr = Some (v, ex) →
  ex = fetchFaults adr (Segment.attr s) (Segment.isEmpty s).
Proof.
  destruct s as [c|e]; cbn [Segment.attr Segment.isEmpty].
  - rewrite chunk_RdIns. case_decide; [|done]. intros [= _ <-].
    apply rdInsException_faults.
  - rewrite <- fetchFaults_absent, <- rdInsException_faults.
    by intros [= _ <-].
Qed.

Lemma segment_Wr_ex w s adr val s' ex :
  Segment.Wr w s adr val = Some (s', ex) →
  ex = writeFaults adr (widthBytes w) (Segment.attr s) (Segment.isEmpty s).
Proof.
  destruct s as [c|e]; cbn [Segment.attr Segment.isEmpty].
  - rewrite chunk_Wr. case_decide; [|done]. intros [= _ <-].
    apply wrException_faults.
  - rewrite <- writeFaults_absent, <- wrException_faults.
    by destruct w; intros [= _ <-].
Qed.

(* ===================================================================== *)
(** * The fault model *)

(** The address space routes an access to the first segment, in the order
    of the collection, whose containment test succeeds, and to the
    always-empty segment when there is none. *)
Lemma lookupSegment_first m adr size pre s post :
  segments m = pre ++ s :: post →
  (∀ s', s' ∈ pre → Segment.In s' adr size = false) →
  Segment.In s adr size = true →
  AddressSpace.lookupSegment m adr size = Some (length pre, s).
Proof.
  intros Hsplit Hpre Hs. unfold AddressSpace.lookupSegment.
  apply list_find_Some. rewrite Hsplit. repeat split.
  - by rewrite lookup_app_r, Nat.sub_diag by lia.
  - done.
  - intros j y Hy Hj. rewrite lookup_app_l in Hy by done.
    rewrite (Hpre y); [done|]. by eapply list_elem_of_lookup_2.
Qed.

Lemma lookupSegment_none m adr size :
  (∀ s, s ∈ segments m → Segment.In s adr size = false) →
  AddressSpace.lookupSegment m adr size = None.
Proof.
  intros Hno. unfold AddressSpace.lookupSegment.
  apply list_find_None, Forall_forall. intros s Hs. by rewrite (Hno s Hs).
Qed.

(** C1 (fault composition).  The exception mask returned by a data read, an
    instruction fetch or a write, of any width, on a chunk, on an empty
    region or through the address space, is the bitwise OR of exactly the
    violated conditions: misalignment ([Align]), the missing permission
    ([Read], [Write], and [Exec] for a fetch) and the absence of memory
    ([Empty]).  An access to an empty region always returns that mask, an
    access to a chunk returns it whenever its bytes lie in the memory
    array, and no access returns any other mask.  The address space gives
    the access to the first segment of its collection whose containment
    test succeeds, and to its always-empty segment when there is none.  In
    particular an aligned 4-byte write to a chunk without write permission
    returns [Write] alone, and a misaligned write to an empty region
    without write permission returns [Align|Write|Empty]. *)
Theorem fault_composition :
  (∀ w s adr v ex,
     Segment.Rd w s adr = Some (v, ex) →
     ex = readFaults adr (widthBytes w) (Segment.attr s) (Segment.isEmpty s))
  ∧ (∀ s adr v ex,
       Segment.RdIns s adr = Some (v, ex) →
       ex = fetchFaults adr (Segment.attr s) (Segment.isEmpty s))
  ∧ (∀ w s adr val s' ex,
       Segment.Wr w s adr val = Some (s', ex) →
       ex = writeFaults adr (widthBytes w) (Segment.attr s)
              (Segment.isEmpty s))
  ∧ (∀ w e adr,
       Segment.Rd w (SEmpty e) adr
       = Some (MaxUint (widthBits w),
               readFaults adr (widthBytes w) (e_attr e) true))
  ∧ (∀ e adr,
       Segment.RdIns (SEmpty e) adr
       = Some (MaxUint 32, fetchFaults adr (e_attr e) true))
  ∧ (∀ w e adr val,
       Segment.Wr w (SEmpty e) adr val
       = Some (SEmpty e, writeFaults adr (widthBytes w) (e_attr e) true))
  ∧ (∀ w c adr,
       inArray c adr (widthBytes w) →
       snd <$> Segment.Rd w (SChunk c) adr
       = Some (readFaults adr (widthBytes w) (c_attr c) false))
  ∧ (∀ c adr,
       inArray c adr 4 →
       snd <$> Segment.RdIns (SChunk c) adr
       = Some (fetchFaults adr (c_attr c) false))
  ∧ (∀ w c adr val,
       inArray c adr (widthBytes w) →
       snd <$> Segment.Wr w (SChunk c) adr val
       = Some (writeFaults adr (widthBytes w) (c_attr c) false))
  ∧ (∀ m adr size pre s post,
       segments m = pre ++ s :: post →
       (∀ s', s' ∈ pre → Segment.In s' adr size = false) →
       Segment.In s adr size = true →
       AddressSpace.route m adr size = s)
  ∧ (∀ m adr size,
       (∀ s, s ∈ segments m → Segment.In s adr size = false) →
       AddressSpace.route m adr size = SEmpty (noMemory m))
  ∧ (∀ w m adr pre s post,
       segments m = pre ++ s :: post →
       (∀ s', s' ∈ pre → Segment.In s' adr (widthBytes w) = false) →
       Segment.In s adr (widthBytes w) = true →
       AddressSpace.Rd w m adr = Segment.Rd w s adr
       ∧ ∀ val, snd <$> AddressSpace.Wr w m adr val
                = snd <$> Segment.Wr w s adr val)
  ∧ (∀ m adr pre s post,
       segments m = pre ++ s :: post →
       (∀ s', s' ∈ pre → Segment.In s' adr 4 = false) →
       Segment.In s adr 4 = true →
       AddressSpace.RdIns m adr = Segment.RdIns s adr)
  ∧ (∀ w m adr,
       (∀ s, s ∈ segments m → Segment.In s adr (widthBytes w) = false) →
       AddressSpace.Rd w m adr
       = Some (MaxUint (widthBits w),
               readFaults adr (widthBytes w) (e_attr (noMemory m)) true)
       ∧ ∀ val, AddressSpace.Wr w m adr val
                = Some (m, writeFaults adr (widthBytes w)
                             (e_attr (noMemory m)) true))
  ∧ (∀ m adr,
       (∀ s, s ∈ segments m → Segment.In s adr 4 = false) →
       AddressSpace.RdIns m adr
       = Some (MaxUint 32, fetchFaults adr (e_attr (noMemory m)) true))
  ∧ (∀ w m adr v ex,
       AddressSpace.Rd w m adr = Some (v, ex) →
       let s := AddressSpace.route m adr (widthBytes w) in
       ex = readFaults adr (widthBytes w) (Segment.attr s)
              (Segment.isEmpty s))
  ∧ (∀ m adr v ex,
       AddressSpace.RdIns m adr = Some (v, ex) →
       let s := AddressSpace.route m adr 4 in
       ex = fetchFaults adr (Segment.attr s) (Segment.isEmpty s))
  ∧ (∀ w m adr val m' ex,
       AddressSpace.Wr w m adr val = Some (m', ex) →
       let s := AddressSpace.route m adr (widthBytes w) in
       ex = writeFaults adr (widthBytes w) (Segment.attr s)
              (Segment.isEmpty s))
  ∧ (∀ c adr val,
       inArray c adr 4 → Z.land (c_attr c) AttrW = 0 → adr mod 4 = 0 →
       snd <$> Segment.Wr W32 (SChunk c) adr val = Some ExWrite)
  ∧ (∀ w e adr val,
       Z.land (e_attr e) AttrW = 0 → adr mod widthBytes w ≠ 0 →
       Segment.Wr w (SEmpty e) adr val
       = Some (SEmpty e, Z.lor (Z.lor ExAlign ExWrite) ExEmpty)).
Proof.
  assert (HeRd : ∀ w e adr,
            Segment.Rd w (SEmpty e) adr
            = Some (MaxUint (widthBits w),
                    readFaults adr (widthBytes w) (e_attr e) true)).
  { intros w e adr. rewrite <- readFaults_absent, <- rdException_faults.
    by destruct w. }
  assert (HeIns : ∀ e adr,
            Segment.RdIns (SEmpty e) adr
            = Some (MaxUint 32, fetchFaults adr (e_attr e) true)).
  { intros e adr. by rewrite <- fetchFaults_absent_eq. }
  assert (HeWr : ∀ w e adr val,
            Segment.Wr w (SEmpty e) adr val
            = Some (SEmpty e,
                    writeFaults adr (widthBytes w) (e_attr e) true)).
  { intros w e adr val.
    rewrite <- writeFaults_absent, <- wrException_faults. by destruct w. }
  assert (HcWr : ∀ w c adr val,
            inArray c adr (widthBytes w) →
            snd <$> Segment.Wr w (SChunk c) adr val
            = Some (writeFaults adr (widthBytes w) (c_attr c) false)).
  { intros w c adr val Hin. rewrite chunk_Wr, decide_True by done.
    cbn. by rewrite wrException_faults. }
  repeat apply conj.
  - apply segment_Rd_ex.
  - apply segment_RdIns_ex.
  - apply segment_Wr_ex.
  - exact HeRd.
  - exact HeIns.
  - exact HeWr.
  - intros w c adr Hin. rewrite chunk_Rd, decide_True by done.
    cbn. by rewrite rdException_faults.
  - intros c adr Hin. rewrite chunk_RdIns, decide_True by done.
    cbn. by rewrite rdInsException_faults.
  - exact HcWr.
  - intros m adr size pre s post H1 H2 H3. unfold AddressSpace.route.
    by rewrite (lookupSegment_first _ _ _ _ _ _ H1 H2 H3).
  - intros m adr size Hno. unfold AddressSpace.route.
    by rewrite lookupSegment_none.
  - intros w m adr pre s post H1 H2 H3.
    unfold AddressSpace.Rd, AddressSpace.Wr, AddressSpace.route.
    rewrite (lookupSegment_first _ _ _ _ _ _ H1 H2 H3).
    split; [done|]. intros val.
    by destruct (Segment.Wr w s adr val) as [[s' ex]|].
  - intros m adr pre s post H1 H2 H3.
    unfold AddressSpace.RdIns, AddressSpace.route.
    by rewrite (lookupSegment_first _ _ _ _ _ _ H1 H2 H3).
  - intros w m adr Hno.
    unfold AddressSpace.Rd, AddressSpace.Wr, AddressSpace.route.
    rewrite lookupSegment_none by done. split; [apply HeRd|].
    intros val. by rewrite HeWr.
  - intros m adr Hno. unfold AddressSpace.RdIns, AddressSpace.route.
    rewrite lookupSegment_none by done. apply HeIns.
  - intros w m adr v ex H. by apply segment_Rd_ex in H.
  - intros m adr v ex H. by apply segment_RdIns_ex in H.
  - intros w m adr val m' ex H.
    unfold AddressSpace.Wr, AddressSpace.route in *.
    destruct (AddressSpace.lookupSegment _ _ _) as [[i s]|];
      destruct (Segment.Wr _ _ _ _) as [[s' ex']|] eqn:E; try done;
      injection H as _ <-; by apply segment_Wr_ex in E.
  - intros c adr val Hin Hw Ha.
    change 4 with (widthBytes W32) in Hin. rewrite (HcWr W32) by done.
    cbn [widthBytes]. unfold writeFaults, misaligned, lacks.
    by rewrite Hw, Ha.
  - intros w e adr val Hw Ha. rewrite HeWr.
    unfold writeFaults, misaligned, lacks. rewrite Hw.
    by destruct (Z.eqb_spec (adr mod widthBytes w) 0).
Qed.

(** In the address space of a read/execute chunk at 0 and a read-only
    empty region at 32: a 4-byte write at address 4 goes to the chunk and
    returns [Write]; a 2-byte write at address 33 goes to the empty region
    and returns [Align|Write|Empty]; a misaligned 4-byte read at address 2
    of the chunk returns [Align]; a fetch at address 34 returns
    [Exec|Empty]; and an 8-byte read at the unmapped address 101 is
    answered by the always-empty segment with [Align|Read|Empty]. *)
Lemma fault_composition_witness :
  snd <$> AddressSpace.Wr W32
            (mkAddressSpace [SChunk (NewChunk 0 32 AttrRX);
                             SEmpty (NewEmpty 32 32 AttrR)]
               (NewEmpty 0 0 0)) 4 19
  = Some ExWrite
  ∧ snd <$> AddressSpace.Wr W16
              (mkAddressSpace [SChunk (NewChunk 0 32 AttrRX);
                               SEmpty (NewEmpty 32 32 AttrR)]
                 (NewEmpty 0 0 0)) 33 19
    = Some (Z.lor (Z.lor ExAlign ExWrite) ExEmpty)
  ∧ snd <$> AddressSpace.Rd W32
              (mkAddressSpace [SChunk (NewChunk 0 32 AttrRX);
                               SEmpty (NewEmpty 32 32 AttrR)]
                 (NewEmpty 0 0 0)) 2
    = Some ExAlign
  ∧ AddressSpace.RdIns
      (mkAddressSpace [SChunk (NewChunk 0 32 AttrRX);
                       SEmpty (NewEmpty 32 32 AttrR)]
         (NewEmpty 0 0 0)) 34
    = Some (MaxUint 32, Z.lor ExExec ExEmpty)
  ∧ AddressSpace.Rd W64
      (mkAddressSpace [SChunk (NewChunk 0 32 AttrRX);
                       SEmpty (NewEmpty 32 32 AttrR)]
         (NewEmpty 0 0 0)) 101
    = Some (MaxUint 64, Z.lor (Z.lor ExAlign ExRead) ExEmpty).
Proof.
  destruct fault_composition
    as (_ & _ & _ & _ & HeIns & HeWr & HcRd & _ & _ & _ & _ & Hroute
        & HrouteIns & Hnone & _ & _ & _ & _ & Hchunk & Hempty).
  set (c := NewChunk 0 32 AttrRX). set (e := NewEmpty 32 32 AttrR).
  set (m := mkAddressSpace [SChunk c; SEmpty e] (NewEmpty 0 0 0)).
  assert (Hnil : ∀ (adr size : Z) s', s' ∈ @nil Segment →
                   Segment.In s' adr size = false)
    by (intros adr size s' Hs'; inv Hs').
  assert (Hc : ∀ (adr size : Z), Segment.In (SChunk c) adr size = false →
                 ∀ s', s' ∈ [SChunk c] → Segment.In s' adr size = false)
    by (intros adr size H s' Hs';
        by apply list_elem_of_singleton in Hs' as ->).
  repeat apply conj.
  - destruct (Hroute W32 m 4 [] (SChunk c) [SEmpty e]) as [_ HW];
      [reflexivity|apply Hnil|reflexivity|].
    rewrite HW. apply Hchunk; by vm_compute.
  - destruct (Hroute W16 m 33 [SChunk c] (SEmpty e) []) as [_ HW];
      [reflexivity|by apply Hc|reflexivity|].
    rewrite HW, Hempty; [reflexivity|reflexivity|by vm_compute].
  - destruct (Hroute W32 m 2 [] (SChunk c) [SEmpty e]) as [HR _];
      [reflexivity|apply Hnil|reflexivity|].
    rewrite HR, HcRd by (by vm_compute). reflexivity.
  - rewrite (HrouteIns m 34 [SChunk c] (SEmpty e) []);
      [|reflexivity|by apply Hc|reflexivity].
    rewrite HeIns. reflexivity.
  - destruct (Hnone W64 m 101) as [HR _].
    + intros s Hs. cbn [segments m] in Hs.
      apply elem_of_cons in Hs as [->|Hs]; [reflexivity|].
      by apply list_elem_of_singleton in Hs as ->.
    + rewrite HR. reflexivity.
Defined.

(** C7 (instruction fetch).  The exception of an instruction fetch contains
    [Align] exactly when the address is odd (the alignment is two bytes,
    though four bytes are read) and [Exec] exactly when the attributes lack
    the execute permission; the first depends on the address only and the
    second on the attributes only. *)
Theorem fetch_exception :
  (∀ adr attr,
     has ExAlign (rdInsException adr attr) = misaligned adr 2
     ∧ has ExExec (rdInsException adr attr) = lacks AttrX attr)
  ∧ (∀ s adr v ex,
       Segment.RdIns s adr = Some (v, ex) →
       (has ExAlign ex = true ↔ adr mod 2 ≠ 0)
       ∧ (has ExExec ex = true ↔ Z.land (Segment.attr s) AttrX = 0)).
Proof.
  split.
  - intros adr attr. rewrite rdInsException_faults.
    by destruct (fetchFaults_bits adr attr false) as (-> & _ & -> & _).
  - intros s adr v ex H. apply segment_RdIns_ex in H. subst ex.
    destruct (fetchFaults_bits adr (Segment.attr s) (Segment.isEmpty s))
      as (-> & _ & -> & _).
    unfold misaligned, lacks. split.
    + destruct (Z.eqb_spec (adr mod 2) 0); naive_solver.
    + destruct (Z.eqb_spec (Z.land (Segment.attr s) AttrX) 0); naive_solver.
Qed.

(** A fetch at the odd address 5 of a read/write chunk reports both faults. *)
Lemma fetch_exception_witness :
  Segment.RdIns (SChunk (NewChunk 0 32 AttrRW)) 5
  = Some (MaxUint 32, Z.lor ExAlign ExExec)
  ∧ (has ExAlign (Z.lor ExAlign ExExec) = true ↔ 5 mod 2 ≠ 0)
  ∧ (has ExExec (Z.lor ExAlign ExExec) = true ↔ Z.land AttrRW AttrX = 0).
Proof.
  split; [reflexivity|].
  exact (proj2 fetch_exception (SChunk (NewChunk 0 32 AttrRW)) 5
           (MaxUint 32) (Z.lor ExAlign ExExec) eq_refl).
Defined.

(** C10 (fault kinds by operation).  Whatever the segment, the address and
    the attributes, the mask of a data read lies within
    [Align|Read|Empty], that of an instruction fetch within
    [Align|Read|Exec|Empty] and that of a write within
    [Align|Write|Empty]: a read never reports [Write], a write never
    reports [Read] or [Exec]. *)
Theorem fault_kinds_separated :
  (∀ w s adr v ex,
     Segment.Rd w s adr = Some (v, ex) →
     Z.land ex (Z.lor (Z.lor ExAlign ExRead) ExEmpty) = ex
     ∧ has ExWrite ex = false ∧ has ExExec ex = false)
  ∧ (∀ s adr v ex,
       Segment.RdIns s adr = Some (v, ex) →
       Z.land ex (Z.lor (Z.lor (Z.lor ExAlign ExRead) ExExec) ExEmpty) = ex
       ∧ has ExWrite ex = false)
  ∧ (∀ w s adr val s' ex,
       Segment.Wr w s adr val = Some (s', ex) →
       Z.land ex (Z.lor (Z.lor ExAlign ExWrite) ExEmpty) = ex
       ∧ has ExRead ex = false ∧ has ExExec ex = false).
Proof.
  repeat apply conj.
  - intros w s adr v ex H. apply segment_Rd_ex in H. subst ex.
    generalize (Segment.isEmpty s). intros b. repeat split; by_cases.
  - intros s adr v ex H. apply segment_RdIns_ex in H. subst ex.
    generalize (Segment.isEmpty s). intros b. repeat split; by_cases.
  - intros w s adr val s' ex H. apply segment_Wr_ex in H. subst ex.
    generalize (Segment.isEmpty s). intros b. repeat split; by_cases.
Qed.

(** A misaligned 8-byte read of an empty region without any permission sets
    all three read faults and no other. *)
Lemma fault_kinds_separated_witness :
  Segment.Rd W64 (SEmpty (NewEmpty 0 32 0)) 3
  = Some (MaxUint 64, Z.lor (Z.lor ExAlign ExRead) ExEmpty)
  ∧ Z.land (Z.lor (Z.lor ExAlign ExRead) ExEmpty)
      (Z.lor (Z.lor ExAlign ExRead) ExEmpty)
    = Z.lor (Z.lor ExAlign ExRead) ExEmpty
  ∧ has ExWrite (Z.lor (Z.lor ExAlign ExRead) ExEmpty) = false
  ∧ has ExExec (Z.lor (Z.lor ExAlign ExRead) ExEmpty) = false.
Proof.
  split; [reflexivity|].
  exact (proj1 fault_kinds_separated W64 (SEmpty (NewEmpty 0 32 0)) 3
           (MaxUint 64) (Z.lor (Z.lor ExAlign ExRead) ExEmpty) eq_refl).
Defined.

(* ===================================================================== *)
(** * Values read and bytes written *)

Lemma widthNat_bytes w : Z.of_nat (widthNat w) = widthBytes w.
Proof. by destruct w. Qed.

Lemma length_withBytes c adr bs :
  inArray c adr (Z.of_nat (length bs)) →
  length (c_mem (withBytes c adr bs)) = length (c_mem c).
Proof.
  pose proof (offset_nonneg c adr). unfold inArray. intros Hin.
  cbn. rewrite !length_app, length_take, length_drop. lia.
Qed.

Lemma offset_withBytes c adr bs a : offset (withBytes c adr bs) a = offset c a.
Proof. done. Qed.

(** The bytes stored at an address are the bytes found there afterwards. *)
Lemma bytesAt_withBytes c adr bs :
  inArray c adr (Z.of_nat (length bs)) →
  bytesAt (withBytes c adr bs) adr (length bs) = bs.
Proof.
  pose proof (offset_nonneg c adr). unfold inArray. intros Hin.
  unfold bytesAt. rewrite offset_withBytes. cbn.
  rewrite drop_app_length' by (rewrite length_take; lia).
  by rewrite take_app_length.
Qed.

(** The bytes outside the stored range keep their value. *)
Lemma lookup_withBytes_other c adr bs (i : nat) :
  inArray c adr (Z.of_nat (length bs)) →
  (i < Z.to_nat (offset c adr) ∨ Z.to_nat (offset c adr) + length bs ≤ i)%nat →
  c_mem (withBytes c adr bs) !! i = c_mem c !! i.
Proof.
  pose proof (offset_nonneg c adr). unfold inArray. intros Hin Hi. cbn.
  destruct Hi as [Hi|Hi].
  - rewrite lookup_app_l by (rewrite length_take; lia).
    by rewrite lookup_take_lt.
  - rewrite lookup_app_r by (rewrite length_take; lia).
    rewrite lookup_app_r by (rewrite length_take; lia).
    rewrite lookup_drop, length_take. f_equal. lia.
Qed.

Lemma leValue_storedBytes w val :
  0 ≤ val < 2 ^ widthBits w → leValue (storedBytes w val) = val.
Proof.
  destruct w; cbn [storedBytes]; intros Hv.
  - cbn. by rewrite Z.lor_0_r.
  - by apply leValue_leBytes_id.
  - by apply leValue_leBytes_id.
  - by apply leValue_leBytes_id.
Qed.

(** C8 (write-through).  A write to a chunk stores the bytes of the value,
    least significant byte first, at the address, whatever exception it
    returns: it returns whenever the bytes lie in the memory array, the
    chunk is then the one with the bytes stored, and a read of the same
    width at the same address gives the value back.  A write to an empty
    region returns the region as it was. *)
Theorem write_through :
  (∀ w c adr val,
     inArray c adr (widthBytes w) → 0 ≤ val < 2 ^ widthBits w →
     let c' := withBytes c adr (storedBytes w val) in
     Segment.Wr w (SChunk c) adr val
       = Some (SChunk c', wrException adr (c_attr c) (widthBytes w))
     ∧ Segment.Rd w (SChunk c') adr
       = Some (val, rdException adr (c_attr c) (widthBytes w))
     ∧ bytesAt c' adr (widthNat w) = storedBytes w val
     ∧ length (c_mem c') = length (c_mem c))
  ∧ (∀ w c adr val s' ex,
       Segment.Wr w (SChunk c) adr val = Some (s', ex) →
       s' = SChunk (withBytes c adr (storedBytes w val)))
  ∧ (∀ w e adr val,
       ∃ ex, Segment.Wr w (SEmpty e) adr val = Some (SEmpty e, ex)).
Proof.
  repeat apply conj.
  - intros w c adr val Hin Hval c'.
    assert (Hin' : inArray c adr (Z.of_nat (length (storedBytes w val))))
      by (by rewrite length_storedBytes, widthNat_bytes).
    assert (Hb : bytesAt c' adr (widthNat w) = storedBytes w val).
    { rewrite <- (length_storedBytes w val). by apply bytesAt_withBytes. }
    assert (Hl : length (c_mem c') = length (c_mem c))
      by (by apply length_withBytes).
    repeat split; [| |done|done].
    + rewrite chunk_Wr. by rewrite decide_True.
    + rewrite chunk_Rd. rewrite decide_True.
      * by rewrite Hb, leValue_storedBytes.
      * unfold inArray in *. by rewrite Hl.
  - intros w c adr val s' ex. rewrite chunk_Wr. case_decide; [|done].
    by intros [= <- _].
  - intros w e adr val. destruct w; by eexists.
Qed.

(** A misaligned 4-byte write to a read-only chunk returns [Align|Write],
    and the value is in memory all the same. *)
Lemma write_through_witness :
  ∃ c', Segment.Wr W32 (SChunk (NewChunk 0 8 AttrR)) 1 305419896
        = Some (SChunk c', Z.lor ExWrite ExAlign)
        ∧ Segment.Rd W32 (SChunk c') 1 = Some (305419896, ExAlign)
        ∧ c_mem c' = [255; 120; 86; 52; 18; 255; 255; 255].
Proof.
  eexists.
  destruct (proj1 write_through W32 (NewChunk 0 8 AttrR) 1 305419896)
    as (Hw & Hr & _).
  - by vm_compute.
  - by vm_compute.
  - split; [exact Hw|]. split; [exact Hr|reflexivity].
Defined.

(** The scenario of the no-operation word: a chunk of 0x20 bytes at
    address 0 with the attribute [RX]; the write of 0x00000013 at address 0
    reports [Write] and stores the word, and the fetch at address 0 then
    returns it without a fault. *)
Example nop_scenario :
  ∃ c', Segment.Wr W32 (SChunk (NewChunk 0 32 AttrRX)) 0 19
        = Some (SChunk c', ExWrite)
        ∧ Segment.RdIns (SChunk c') 0 = Some (19, 0).
Proof. by eexists. Qed.

(** C2 (sentinel), as the code has it.  A read of any width and an
    instruction fetch on an empty region return the largest value of the
    width, with a mask that is not zero and contains [Empty].  A read on a
    chunk returns the value of the memory bytes at the address, least
    significant byte first, whatever the mask is. *)
Theorem sentinel_on_empty :
  (∀ w e adr,
     ∃ ex, Segment.Rd w (SEmpty e) adr = Some (MaxUint (widthBits w), ex)
           ∧ ex ≠ 0 ∧ has ExEmpty ex = true)
  ∧ (∀ e adr,
       ∃ ex, Segment.RdIns (SEmpty e) adr = Some (MaxUint 32, ex)
             ∧ ex ≠ 0 ∧ has ExEmpty ex = true)
  ∧ (∀ w c adr v ex,
       Segment.Rd w (SChunk c) adr = Some (v, ex) →
       v = leValue (bytesAt c adr (widthNat w)))
  ∧ (∀ c adr v ex,
       Segment.RdIns (SChunk c) adr = Some (v, ex) →
       v = leValue (bytesAt c adr 4)).
Proof.
  assert (Hne : ∀ x, has ExEmpty x = true → x ≠ 0) by (by intros x H ->).
  repeat apply conj.
  - intros w e adr.
    destruct (Segment.Rd w (SEmpty e) adr) as [[v ex]|] eqn:E;
      [|by destruct w].
    pose proof (segment_Rd_ex _ _ _ _ _ E) as Hex.
    cbn [Segment.isEmpty Segment.attr] in Hex.
    assert (has ExEmpty ex = true)
      by (subst ex; by destruct (readFaults_bits adr (widthBytes w)
                                   (e_attr e) true) as (_ & _ & -> & _)).
    exists ex. split; [|by auto]. by destruct w; injection E as <- <-.
  - intros e adr. eexists. split; [reflexivity|].
    rewrite fetchFaults_absent_eq.
    assert (has ExEmpty (fetchFaults adr (e_attr e) true) = true)
      by (by destruct (fetchFaults_bits adr (e_attr e) true)
            as (_ & _ & _ & -> & _)).
    auto.
  - intros w c adr v ex. rewrite chunk_Rd. case_decide; [|done].
    by intros [= <- _].
  - intros c adr v ex. rewrite chunk_RdIns. case_decide; [|done].
    by intros [= <- _].
Qed.

(** A 4-byte read at address 0 of a chunk that holds the word 19 and has no
    read permission returns 19 with the [Read] fault. *)
Lemma sentinel_on_empty_witness :
  Segment.Rd W32 (SChunk (mkChunk AttrW 0 3 [19; 0; 0; 0])) 0
  = Some (19, ExRead)
  ∧ 19 = leValue (bytesAt (mkChunk AttrW 0 3 [19; 0; 0; 0]) 0 (widthNat W32)).
Proof.
  split; [reflexivity|].
  exact (proj1 (proj2 (proj2 sentinel_on_empty)) W32
           (mkChunk AttrW 0 3 [19; 0; 0; 0]) 0 19 ExRead eq_refl).
Defined.

(** The chunk of the counterexample is [NewChunk(0, 4, AttrW)] after the
    write of the word 19 at address 0. *)
Lemma sentinel_chunk_reachable :
  Segment.Wr W32 (SChunk (NewChunk 0 4 AttrW)) 0 19
  = Some (SChunk (mkChunk AttrW 0 3 [19; 0; 0; 0]), 0).
Proof. reflexivity. Qed.

(** C2 as stated fails: a faulting read of a chunk returns the memory
    contents, not the largest value of the width. *)
Lemma sentinel_on_fault_counterexample :
  ¬ (∀ w s adr v ex,
       Segment.Rd w s adr = Some (v, ex) → ex ≠ 0 →
       v = MaxUint (widthBits w)).
Proof.
  intros H.
  specialize (H W32 (SChunk (mkChunk AttrW 0 3 [19; 0; 0; 0])) 0 19 ExRead
                eq_refl).
  by discriminate H.
Qed.

(* ===================================================================== *)
(** * Containment and the accesses that return *)

Lemma wrap_pred x : 1 ≤ x ≤ 2 ^ uintBits → wrap (wrap x - 1) = x - 1.
Proof.
  intros Hx. unfold wrap. rewrite Zminus_mod_idemp_l.
  apply Z.mod_small. lia.
Qed.

Lemma wrap_small x : 0 ≤ x < 2 ^ uintBits → wrap x = x.
Proof. apply Z.mod_small. Qed.

(** Without overflow of [adr + size - 1] the containment test is the
    containment of the closed interval. *)
Lemma Chunk_In_without_overflow c adr size :
  0 ≤ adr → 1 ≤ size → adr + size ≤ 2 ^ uintBits →
  Chunk.In c adr size = true ↔ c_start c ≤ adr ∧ adr + size - 1 ≤ c_end c.
Proof.
  intros Ha Hs Hno. unfold Chunk.In. cbn zeta.
  rewrite wrap_pred by lia. rewrite andb_true_iff, !Z.leb_le. done.
Qed.

Lemma Empty_In_without_overflow e adr size :
  0 ≤ adr → 1 ≤ size → adr + size ≤ 2 ^ uintBits →
  Empty.In e adr size = true ↔ e_start e ≤ adr ∧ adr + size - 1 ≤ e_end e.
Proof.
  intros Ha Hs Hno. unfold Empty.In. cbn zeta.
  rewrite wrap_pred by lia. rewrite andb_true_iff, !Z.leb_le. done.
Qed.

(** C9 at the failing input: for the chunk and the empty region
    [0, 31] the test [In(2^64-1, 4)] computes [end = 2] and answers true,
    though the interval [2^64-1, 2^64+2] is not within [0, 31]. *)
Theorem In_wraps_around :
  Chunk.In (NewChunk 0 32 AttrRW) (2 ^ 64 - 1) 4 = true
  ∧ Empty.In (NewEmpty 0 32 AttrRW) (2 ^ 64 - 1) 4 = true
  ∧ c_end (NewChunk 0 32 AttrRW) = 31
  ∧ ¬ (0 ≤ 2 ^ 64 - 1 ∧ (2 ^ 64 - 1) + 4 - 1 ≤ 31)
  ∧ Segment.Rd W32 (SChunk (NewChunk 0 32 AttrRW)) (2 ^ 64 - 1) = None.
Proof. repeat split; try by vm_compute. intros [_ H]. by vm_compute in H. Qed.

(** A chunk made by [NewChunk] that does not wrap around the address
    space, and a test that does not overflow: the containment test
    guarantees that the bytes lie in the memory array. *)
Lemma In_inArray start size attr adr n :
  0 ≤ start → 1 ≤ size → start + size ≤ 2 ^ uintBits →
  0 ≤ adr → 1 ≤ n → adr + n ≤ 2 ^ uintBits →
  Chunk.In (NewChunk start size attr) adr n = true →
  inArray (NewChunk start size attr) adr n.
Proof.
  intros H1 H2 H3 H4 H5 H6 Hin.
  apply Chunk_In_without_overflow in Hin; [|done..].
  cbn [NewChunk c_start c_end] in Hin. rewrite wrap_pred in Hin by lia.
  unfold inArray, offset. cbn [NewChunk c_start c_mem].
  rewrite length_replicate, wrap_small by lia. lia.
Qed.

(** C4, as the code has it.  Every access to an empty region returns.  An
    access of [n] bytes to a chunk returns exactly when the [n] bytes from
    the offset [adr - start] lie in the memory array, and otherwise it
    panics (index or slice out of range).  The bytes lie in the array
    whenever the containment test succeeds, for a chunk of [NewChunk] and
    without overflow. *)
Theorem access_returns :
  (∀ w e adr, is_Some (Segment.Rd w (SEmpty e) adr))
  ∧ (∀ e adr, is_Some (Segment.RdIns (SEmpty e) adr))
  ∧ (∀ w e adr val, is_Some (Segment.Wr w (SEmpty e) adr val))
  ∧ (∀ w c adr,
       is_Some (Segment.Rd w (SChunk c) adr) ↔ inArray c adr (widthBytes w))
  ∧ (∀ c adr, is_Some (Segment.RdIns (SChunk c) adr) ↔ inArray c adr 4)
  ∧ (∀ w c adr val,
       is_Some (Segment.Wr w (SChunk c) adr val)
       ↔ inArray c adr (widthBytes w))
  ∧ (∀ w start size attr adr,
       0 ≤ start → 1 ≤ size → start + size ≤ 2 ^ uintBits →
       0 ≤ adr → adr + widthBytes w ≤ 2 ^ uintBits →
       Chunk.In (NewChunk start size attr) adr (widthBytes w) = true →
       is_Some (Segment.Rd w (SChunk (NewChunk start size attr)) adr)
       ∧ ∀ val,
           is_Some (Segment.Wr w (SChunk (NewChunk start size attr)) adr val)).
Proof.
  repeat apply conj.
  - intros w e adr. by destruct w.
  - done.
  - intros w e adr val. by destruct w.
  - intros w c adr. rewrite chunk_Rd. case_decide; [done|].
    split; [by intros []|done].
  - intros c adr. rewrite chunk_RdIns. case_decide; [done|].
    split; [by intros []|done].
  - intros w c adr val. rewrite chunk_Wr. case_decide; [done|].
    split; [by intros []|done].
  - intros w start size attr adr H1 H2 H3 H4 H5 Hin.
    assert (inArray (NewChunk start size attr) adr (widthBytes w))
      by (apply In_inArray; by try destruct w).
    split; [|intros val]; [rewrite chunk_Rd|rewrite chunk_Wr];
      by rewrite decide_True.
Qed.

(** The last 4-byte word of a chunk of 8 bytes passes the containment test
    and is read. *)
Lemma access_returns_witness :
  is_Some (Segment.Rd W32 (SChunk (NewChunk 0 8 AttrRWX)) 4)
  ∧ ∀ val, is_Some (Segment.Wr W32 (SChunk (NewChunk 0 8 AttrRWX)) 4 val).
Proof.
  apply (proj2 (proj2 (proj2 (proj2 (proj2 (proj2 access_returns)))))
           W32 0 8 AttrRWX 4); by vm_compute.
Defined.

(** C4 as stated fails: a 4-byte read, and an instruction fetch, at
    address 6 of a chunk of 8 bytes at address 0 panic. *)
Lemma access_returns_counterexample :
  ¬ (∀ w s adr, is_Some (Segment.Rd w s adr))
  ∧ ¬ (∀ s adr, is_Some (Segment.RdIns s adr))
  ∧ ¬ (∀ w s adr val, is_Some (Segment.Wr w s adr val)).
Proof.
  repeat split; intros H.
  - by destruct (H W32 (SChunk (NewChunk 0 8 AttrRWX)) 6).
  - by destruct (H (SChunk (NewChunk 0 8 AttrRWX)) 6).
  - by destruct (H W32 (SChunk (NewChunk 0 8 AttrRWX)) 6 0).
Qed.

(* ===================================================================== *)
(** * The disassembler *)

Lemma matches_true ins ii :
  matches ins ii = true ↔ Z.land ins (mask ii) = val ii.
Proof. apply Z.eqb_eq. Qed.

Lemma matches_false ins ii :
  matches ins ii = false ↔ Z.land ins (mask ii) ≠ val ii.
Proof. apply Z.eqb_neq. Qed.

(** The loop returns the decode of the first entry that matches, and the
    two empty strings when there is none. *)
Lemma scan_find table adr ins :
  scan table adr ins
  = match List.find (matches ins) table with
    | Some ii => da (decode ii) (mneumonic ii) adr ins
    | None => (""%string, ""%string)
    end.
Proof.
  induction table as [|ii rest IH]; [done|].
  cbn [scan List.find]. by destruct (matches ins ii).
Qed.

Lemma scan_first table adr ins pre ii post :
  table = pre ++ ii :: post →
  (∀ e, e ∈ pre → Z.land ins (mask e) ≠ val e) →
  Z.land ins (mask ii) = val ii →
  scan table adr ins = da (decode ii) (mneumonic ii) adr ins.
Proof.
  intros -> Hpre Hii. induction pre as [|e pre IH]; cbn [scan app].
  - by rewrite (proj2 (matches_true ins ii) Hii).
  - rewrite (proj2 (matches_false ins e)) by (apply Hpre; left).
    apply IH. intros e' He'. apply Hpre. by right.
Qed.

Lemma scan_none table adr ins :
  (∀ e, e ∈ table → Z.land ins (mask e) ≠ val e) →
  scan table adr ins = (""%string, ""%string).
Proof.
  intros Hno. induction table as [|e rest IH]; [done|]. cbn [scan].
  rewrite (proj2 (matches_false ins e)) by (apply Hno; left).
  apply IH. intros e' He'. apply Hno. by right.
Qed.

Lemma Disassemble_scan Read32 isa adr st :
  let d := Disassemble Read32 isa adr st in
  (Instruction d, Comment d) = scan (instruction isa) adr (Read32 adr).
Proof. unfold Disassemble. by destruct (scan _ _ _). Qed.

(** C3 (first match).  For every instruction table and every word fetched,
    the instruction text and the comment of the disassembly are the output
    of the decode function of the first entry of the table, in its order,
    with [ins & mask == val]; the entries after it have no influence. *)
Theorem first_match_decode :
  ∀ (Read32 : Z → Z) (isa : ISA) (adr : Z) (st : SymbolTable),
    let ins := Read32 adr in
    let d := Disassemble Read32 isa adr st in
    (Instruction d, Comment d)
    = match List.find (matches ins) (instruction isa) with
      | Some ii => da (decode ii) (mneumonic ii) adr ins
      | None => (""%string, ""%string)
      end
    ∧ ∀ pre ii post,
        instruction isa = pre ++ ii :: post →
        (∀ e, e ∈ pre → Z.land ins (mask e) ≠ val e) →
        Z.land ins (mask ii) = val ii →
        (Instruction d, Comment d) = da (decode ii) (mneumonic ii) adr ins.
Proof.
  intros Read32 isa adr st ins d. unfold d. rewrite Disassemble_scan.
  split; [apply scan_find|]. intros pre ii post. apply scan_first.
Qed.

(** The word 0x13 matches the second and the third of three entries: the
    second one decodes it. *)
Lemma first_match_decode_witness :
  (Instruction (Disassemble (λ _, 19) (mkISA "rv32i"
       [mkInsInfo "lui" 55 127 (mkDecoder daNone);
        mkInsInfo "addi" 19 28799 (mkDecoder daNone);
        mkInsInfo "op-imm" 19 127 (mkDecoder daNone)]) 0 None),
   Comment (Disassemble (λ _, 19) (mkISA "rv32i"
       [mkInsInfo "lui" 55 127 (mkDecoder daNone);
        mkInsInfo "addi" 19 28799 (mkDecoder daNone);
        mkInsInfo "op-imm" 19 127 (mkDecoder daNone)]) 0 None))
  = ("addi"%string, "TODO"%string).
Proof.
  apply (proj2 (first_match_decode (λ _, 19) (mkISA "rv32i"
       [mkInsInfo "lui" 55 127 (mkDecoder daNone);
        mkInsInfo "addi" 19 28799 (mkDecoder daNone);
        mkInsInfo "op-imm" 19 127 (mkDecoder daNone)]) 0 None)
         [mkInsInfo "lui" 55 127 (mkDecoder daNone)]
         (mkInsInfo "addi" 19 28799 (mkDecoder daNone))
         [mkInsInfo "op-imm" 19 127 (mkDecoder daNone)]).
  - reflexivity.
  - intros e He. apply list_elem_of_singleton in He as ->. by vm_compute.
  - reflexivity.
Defined.

(** C5, as the code has it.  The length of a disassembly is always 4, the
    size of the 32-bit word fetched, whether an entry matches or not; when
    no entry matches the word the instruction text and the comment are
    empty. *)
Theorem unknown_instruction :
  ∀ (Read32 : Z → Z) (isa : ISA) (adr : Z) (st : SymbolTable),
    let ins := Read32 adr in
    let d := Disassemble Read32 isa adr st in
    N d = 4
    ∧ ((∀ e, e ∈ instruction isa → Z.land ins (mask e) ≠ val e) →
       Instruction d = ""%string ∧ Comment d = ""%string).
Proof.
  intros Read32 isa adr st ins d. split.
  - unfold d, Disassemble. by destruct (scan _ _ _).
  - intros Hno. pose proof (Disassemble_scan Read32 isa adr st) as H.
    cbn zeta in H. rewrite scan_none in H by done. by injection H.
Qed.

(** The word 0 matches none of the entries of the table. *)
Lemma unknown_instruction_witness :
  Instruction (Disassemble (λ _, 0) (mkISA "rv32i"
      [mkInsInfo "lui" 55 127 (mkDecoder daNone);
       mkInsInfo "addi" 19 28799 (mkDecoder daNone)]) 0 None) = ""%string
  ∧ Comment (Disassemble (λ _, 0) (mkISA "rv32i"
      [mkInsInfo "lui" 55 127 (mkDecoder daNone);
       mkInsInfo "addi" 19 28799 (mkDecoder daNone)]) 0 None) = ""%string.
Proof.
  apply (proj2 (unknown_instruction (λ _, 0) (mkISA "rv32i"
      [mkInsInfo "lui" 55 127 (mkDecoder daNone);
       mkInsInfo "addi" 19 28799 (mkDecoder daNone)]) 0 None)).
  intros e He. cbn [instruction] in He.
  apply elem_of_cons in He as [->|He]; [by vm_compute|].
  apply list_elem_of_singleton in He as ->. by vm_compute.
Defined.

(** A compressed no-operation (the 16-bit word 0x0001 under the mask
    0xffff) is disassembled with the length 4 like every other word. *)
Example compressed_length :
  N (Disassemble (λ _, 1)
       (mkISA "rv32c" [mkInsInfo "c.nop" 1 65535 (mkDecoder daNone)]) 0 None)
  = 4
  ∧ Instruction (Disassemble (λ _, 1)
       (mkISA "rv32c" [mkInsInfo "c.nop" 1 65535 (mkDecoder daNone)]) 0 None)
    = "c.nop"%string.
Proof. done. Qed.

(** C5 as stated fails: with an empty table no entry matches the word, and
    the instruction text is empty, not the marker. *)
Lemma unknown_marker_counterexample :
  ¬ (∀ (Read32 : Z → Z) (isa : ISA) (adr : Z) (st : SymbolTable),
       (∀ e, e ∈ instruction isa → Z.land (Read32 adr) (mask e) ≠ val e) →
       Instruction (Disassemble Read32 isa adr st) = "?"%string).
Proof.
  intros H.
  assert (E : Instruction (Disassemble (λ _, 0) (mkISA "rv32g" []) 0 None)
              = "?"%string)
    by (apply H; intros e He; inv He).
  discriminate E.
Qed.

(* ===================================================================== *)
(** * The ISA registry *)

Lemma conflict_true a b :
  conflict a b = true
  ↔ Z.land (val a) (Z.land (mask a) (mask b))
    = Z.land (val b) (Z.land (mask a) (mask b)).
Proof. apply Z.eqb_eq. Qed.

Lemma conflict_sym a b : conflict a b = conflict b a.
Proof.
  unfold conflict. cbn zeta. rewrite (Z.land_comm (mask b) (mask a)).
  apply Z.eqb_sym.
Qed.

(** Two entries whose value lies within their mask conflict exactly when
    some word matches both. *)
Lemma conflict_ambiguous a b :
  Z.land (val a) (mask a) = val a → Z.land (val b) (mask b) = val b →
  conflict a b = true ↔ ∃ ins, matches ins a = true ∧ matches ins b = true.
Proof.
  intros Ha Hb. rewrite conflict_true. split.
  - intros Hc. exists (Z.lor (val a) (val b)).
    rewrite !matches_true. split; apply Z.bits_inj'; intros i _;
      apply (f_equal (λ x, Z.testbit x i)) in Ha, Hb, Hc;
      rewrite ?Z.land_spec, ?Z.lor_spec in *;
      destruct (Z.testbit (val a) i), (Z.testbit (val b) i),
        (Z.testbit (mask a) i), (Z.testbit (mask b) i); done.
  - intros (ins & H1 & H2). apply matches_true in H1, H2.
    rewrite <- H1, <- H2.
    apply Z.bits_inj'; intros i _. rewrite !Z.land_spec.
    by destruct (Z.testbit ins i), (Z.testbit (mask a) i),
      (Z.testbit (mask b) i).
Qed.

Lemma addEntries_Some table new t :
  addEntries table new = Some t → t = table ++ new.
Proof.
  revert table. induction new as [|e rest IH]; intros table; cbn [addEntries].
  - intros [= <-]. by rewrite app_nil_r.
  - destruct (existsb (conflict e) table); [done|].
    intros H. apply IH in H. by rewrite <- app_assoc in H.
Qed.

(** [addEntries] fails exactly when an entry conflicts with an entry that
    is in the table when it is added: one of the table at the start or an
    earlier one of the new entries. *)
Lemma addEntries_None table new :
  addEntries table new = None
  ↔ ∃ pre e post e',
      new = pre ++ e :: post ∧ e' ∈ table ++ pre ∧ conflict e e' = true.
Proof.
  revert table. induction new as [|e rest IH]; intros table; cbn [addEntries].
  - split; [done|]. intros (pre & e & post & e' & H & _).
    by destruct pre.
  - destruct (existsb (conflict e) table) eqn:Ex.
    + split; [intros _|done].
      apply existsb_exists in Ex as (e' & He' & Hc).
      exists [], e, rest, e'. rewrite app_nil_r.
      by rewrite list_elem_of_In.
    + rewrite IH. split.
      * intros (pre & e1 & post & e' & -> & He' & Hc).
        exists (e :: pre), e1, post, e'. repeat split; [|done].
        by rewrite <- app_assoc in He'.
      * intros (pre & e1 & post & e' & H & He' & Hc).
        destruct pre as [|e0 pre].
        -- cbn in H. injection H as <- <-. rewrite app_nil_r in He'.
           assert (existsb (conflict e) table = true); [|congruence].
           apply existsb_exists. exists e'. by rewrite <- list_elem_of_In.
        -- cbn in H. injection H as <- ->.
           exists pre, e1, post, e'. repeat split; [|done].
           by rewrite <- app_assoc.
Qed.

(** C6 (atomic add).  [Add] rejects the extension sets exactly when one of
    the added entries conflicts with an entry already present when it is
    added, where two entries conflict when their values agree under the
    common mask [mask A & mask B]; on rejection the ISA is the one before
    the call, with its entry list and entry count; otherwise the entries
    are appended in argument order. *)
Theorem add_rejects_conflicts :
  ∀ (isa : ISA) (module : list (list insInfo)),
    (snd (Add isa module) = Some ConflictError
     ↔ ∃ pre e post e',
         concat module = pre ++ e :: post
         ∧ e' ∈ instruction isa ++ pre
         ∧ Z.land (val e) (Z.land (mask e) (mask e'))
           = Z.land (val e') (Z.land (mask e) (mask e')))
    ∧ (snd (Add isa module) = Some ConflictError →
       fst (Add isa module) = isa
       ∧ length (instruction (fst (Add isa module)))
         = length (instruction isa))
    ∧ (snd (Add isa module) = None →
       fst (Add isa module)
       = {| name := name isa;
            instruction := instruction isa ++ concat module |}).
Proof.
  intros isa module. unfold Add.
  destruct (addEntries (instruction isa) (concat module)) as [t|] eqn:E;
    cbn [fst snd].
  - repeat split; try done.
    + intros (pre & e & post & e' & H1 & H2 & H3).
      assert (addEntries (instruction isa) (concat module) = None);
        [|congruence].
      apply addEntries_None. exists pre, e, post, e'.
      by rewrite conflict_true.
    + intros _. by rewrite (addEntries_Some _ _ _ E).
  - repeat split; try done. intros _.
    apply addEntries_None in E as (pre & e & post & e' & H1 & H2 & H3).
    exists pre, e, post, e'. by rewrite <- conflict_true.
Qed.

(** Adding [addi] and then an entry for the whole opcode of [addi] to an
    empty ISA is rejected, and the ISA stays empty. *)
Lemma add_rejects_conflicts_witness :
  fst (Add (NewISA "rv32g")
         [[mkInsInfo "addi" 19 28799 (mkDecoder daNone)];
          [mkInsInfo "op-imm" 19 127 (mkDecoder daNone)]])
  = NewISA "rv32g"
  ∧ length (instruction (fst (Add (NewISA "rv32g")
         [[mkInsInfo "addi" 19 28799 (mkDecoder daNone)];
          [mkInsInfo "op-imm" 19 127 (mkDecoder daNone)]])))
    = length (instruction (NewISA "rv32g")).
Proof.
  apply (proj1 (proj2 (add_rejects_conflicts (NewISA "rv32g")
         [[mkInsInfo "addi" 19 28799 (mkDecoder daNone)];
          [mkInsInfo "op-imm" 19 127 (mkDecoder daNone)]]))).
  reflexivity.
Defined.

(* ===================================================================== *)
(** * Further properties of the memory segments *)

(** ** A new chunk *)

Lemma leBytes_ones n : leBytes n (-1) = replicate n 255.
Proof. induction n as [|n IH]; [done|]. cbn [leBytes replicate]. by rewrite <- IH. Qed.

Lemma leValue_replicate n : leValue (replicate n 255) = MaxUint (8 * Z.of_nat n).
Proof.
  rewrite <- leBytes_ones, leValue_leBytes, Z.land_m1_l.
  unfold MaxUint. rewrite Z.ones_equiv. lia.
Qed.

Lemma bytesAt_NewChunk start size attr adr n :
  inArray (NewChunk start size attr) adr (Z.of_nat n) →
  bytesAt (NewChunk start size attr) adr n = replicate n 255.
Proof.
  pose proof (offset_nonneg (NewChunk start size attr) adr) as Hoff.
  unfold inArray, bytesAt. cbn [NewChunk c_mem].
  rewrite length_replicate. intros Hin.
  rewrite drop_replicate, take_replicate. f_equal. lia.
Qed.

(** A chunk is allocated with all its bytes set to 0xff: until it is
    written, every read and every instruction fetch that returns gives the
    largest value of its width. *)
Theorem new_chunk_reads_ones :
  (∀ w start size attr adr,
     inArray (NewChunk start size attr) adr (widthBytes w) →
     Segment.Rd w (SChunk (NewChunk start size attr)) adr
     = Some (MaxUint (widthBits w), rdException adr attr (widthBytes w)))
  ∧ (∀ start size attr adr,
       inArray (NewChunk start size attr) adr 4 →
       Segment.RdIns (SChunk (NewChunk start size attr)) adr
       = Some (MaxUint 32, rdInsException adr attr)).
Proof.
  split.
  - intros w start size attr adr Hin. rewrite chunk_Rd, decide_True by done.
    rewrite bytesAt_NewChunk by (by rewrite widthNat_bytes).
    rewrite leValue_replicate, widthNat_bytes. done.
  - intros start size attr adr Hin. rewrite chunk_RdIns, decide_True by done.
    by rewrite (bytesAt_NewChunk _ _ _ _ 4), leValue_replicate.
Qed.

Lemma new_chunk_reads_ones_witness :
  Segment.Rd W64 (SChunk (NewChunk 4096 16 AttrRW)) 4104
  = Some (MaxUint 64, 0).
Proof.
  apply (proj1 new_chunk_reads_ones W64 4096 16 AttrRW 4104). by vm_compute.
Defined.

(** ** The range of a region *)

Lemma In_interval start end_ adr n :
  0 ≤ adr → 1 ≤ n → adr + n ≤ 2 ^ uintBits →
  (start <=? adr) && (wrap (wrap (adr + n) - 1) <=? end_) = true
  ↔ start ≤ adr ∧ adr + n - 1 ≤ end_.
Proof.
  intros. rewrite wrap_pred by lia. by rewrite andb_true_iff, !Z.leb_le.
Qed.

(** For a region of [size >= 1] bytes at [start] that ends within the
    address space, and an access that does not overflow, the containment
    test is the containment of [adr, adr+n) in [start, start+size); for a
    chunk these are exactly the accesses that lie in the memory array. *)
Theorem In_new_region :
  ∀ start size attr adr n,
    0 ≤ start → 1 ≤ size → start + size ≤ 2 ^ uintBits →
    0 ≤ adr → 1 ≤ n → adr + n ≤ 2 ^ uintBits →
    (Chunk.In (NewChunk start size attr) adr n = true
     ↔ start ≤ adr ∧ adr + n ≤ start + size)
    ∧ (Empty.In (NewEmpty start size attr) adr n = true
       ↔ start ≤ adr ∧ adr + n ≤ start + size)
    ∧ (Chunk.In (NewChunk start size attr) adr n = true
       ↔ inArray (NewChunk start size attr) adr n).
Proof.
  intros start size attr adr n H1 H2 H3 H4 H5 H6.
  assert (HC : Chunk.In (NewChunk start size attr) adr n = true
               ↔ start ≤ adr ∧ adr + n ≤ start + size).
  { unfold Chunk.In. cbn [NewChunk c_start c_end]. cbn zeta.
    rewrite In_interval by done. rewrite wrap_pred by lia. lia. }
  split; [exact HC|]. split.
  { unfold Empty.In. cbn [NewEmpty e_start e_end]. cbn zeta.
    rewrite In_interval by done. rewrite wrap_pred by lia. lia. }
  split.
  - by apply In_inArray.
  - intros Hin. apply HC. unfold inArray, offset in Hin.
    cbn [NewChunk c_start c_mem] in Hin. rewrite length_replicate in Hin.
    unfold wrap in Hin.
    destruct (Z.le_gt_cases start adr) as [Hle|Hgt].
    + rewrite Z.mod_small in Hin by lia. lia.
    + replace (adr - start)
        with (adr - start + 2 ^ uintBits + -1 * 2 ^ uintBits) in Hin by lia.
      rewrite Z_mod_plus_full, Z.mod_small in Hin by lia. lia.
Qed.

Lemma In_new_region_witness :
  Chunk.In (NewChunk 4096 16 AttrRW) 4108 4 = true
  ↔ inArray (NewChunk 4096 16 AttrRW) 4108 4.
Proof.
  apply (In_new_region 4096 16 AttrRW 4108 4); by vm_compute.
Defined.



(** ** Writes and the rest of the memory *)

Lemma bytesAt_withBytes_other c adr bs adr' n :
  inArray c adr (Z.of_nat (length bs)) →
  inArray c adr' (Z.of_nat n) →
  offset c adr' + Z.of_nat n ≤ offset c adr
  ∨ offset c adr + Z.of_nat (length bs) ≤ offset c adr' →
  bytesAt (withBytes c adr bs) adr' n = bytesAt c adr' n.
Proof.
  pose proof (offset_nonneg c adr). pose proof (offset_nonneg c adr').
  intros Hin Hin' Hdis. unfold bytesAt. rewrite offset_withBytes.
  apply list_eq. intros i.
  destruct (decide (i < n)%nat) as [Hi|Hi].
  - rewrite !lookup_take_lt, !lookup_drop by done.
    apply lookup_withBytes_other; [done|]. lia.
  - by rewrite !lookup_take_ge by lia.
Qed.

(** A write changes nothing outside the bytes it stores: a read, of any
    width, of bytes that do not overlap them returns what it returned
    before the write. *)
Theorem write_frame :
  ∀ w c adr val s' ex w' adr',
    Segment.Wr w (SChunk c) adr val = Some (s', ex) →
    inArray c adr' (widthBytes w') →
    offset c adr' + widthBytes w' ≤ offset c adr
    ∨ offset c adr + widthBytes w ≤ offset c adr' →
    Segment.Rd w' s' adr' = Segment.Rd w' (SChunk c) adr'.
Proof.
  intros w c adr val s' ex w' adr' Hw Hin' Hdis.
  rewrite chunk_Wr in Hw. case_decide as Hin; [|done].
  injection Hw as <- _. rewrite !chunk_Rd.
  assert (Hl : Z.of_nat (length (storedBytes w val)) = widthBytes w)
    by (by rewrite length_storedBytes, widthNat_bytes).
  rewrite bytesAt_withBytes_other
    by (by rewrite ?Hl, ?widthNat_bytes).
  assert (inArray (withBytes c adr (storedBytes w val)) adr' (widthBytes w')
          ↔ inArray c adr' (widthBytes w')) as Hiff.
  { unfold inArray. rewrite offset_withBytes, length_withBytes; [done|].
    by rewrite Hl. }
  by rewrite !decide_True by (by rewrite ?Hiff).
Qed.

Lemma write_frame_witness :
  ∃ s', Segment.Wr W16 (SChunk (NewChunk 0 8 AttrRW)) 2 4660
        = Some (s', 0)
        ∧ Segment.Rd W32 s' 4 = Segment.Rd W32 (SChunk (NewChunk 0 8 AttrRW)) 4.
Proof.
  eexists. split; [reflexivity|].
  apply (write_frame W16 (NewChunk 0 8 AttrRW) 2 4660 _ 0 W32 4 eq_refl);
    [by vm_compute|right; by vm_compute].
Defined.

Lemma withBytes_withBytes c adr bs1 bs2 :
  inArray c adr (Z.of_nat (length bs1)) → length bs1 = length bs2 →
  withBytes (withBytes c adr bs1) adr bs2 = withBytes c adr bs2.
Proof.
  pose proof (offset_nonneg c adr). unfold inArray. intros Hin Hlen.
  unfold withBytes at 1 3. rewrite offset_withBytes. cbn [c_attr c_start c_end].
  f_equal. cbn [withBytes c_mem].
  rewrite take_app_length' by (rewrite length_take; lia).
  do 2 f_equal.
  rewrite drop_app_ge by (rewrite length_take; lia).
  rewrite length_take.
  rewrite drop_app_length' by lia. by rewrite Hlen.
Qed.

(** The last write wins: two writes of the same width at the same address
    leave the chunk, and return the exception, of the second one alone. *)
Theorem write_overwrites :
  ∀ w c adr v1 v2 s1 ex1,
    Segment.Wr w (SChunk c) adr v1 = Some (s1, ex1) →
    Segment.Wr w s1 adr v2 = Segment.Wr w (SChunk c) adr v2.
Proof.
  intros w c adr v1 v2 s1 ex1 H1.
  rewrite chunk_Wr in H1. case_decide as Hin; [|done].
  injection H1 as <- _. rewrite !chunk_Wr.
  assert (Hl : ∀ v, Z.of_nat (length (storedBytes w v)) = widthBytes w)
    by (intros; by rewrite length_storedBytes, widthNat_bytes).
  assert (inArray (withBytes c adr (storedBytes w v1)) adr (widthBytes w)).
  { unfold inArray. rewrite offset_withBytes, length_withBytes; [done|].
    by rewrite Hl. }
  rewrite !decide_True by done.
  rewrite withBytes_withBytes; [done|by rewrite Hl|].
  by rewrite !length_storedBytes.
Qed.

Lemma write_overwrites_witness :
  ∃ s1, Segment.Wr W32 (SChunk (NewChunk 0 8 AttrRW)) 4 1 = Some (s1, 0)
        ∧ Segment.Wr W32 s1 4 2
          = Segment.Wr W32 (SChunk (NewChunk 0 8 AttrRW)) 4 2.
Proof.
  eexists. split; [reflexivity|].
  exact (write_overwrites W32 (NewChunk 0 8 AttrRW) 4 1 2 _ 0 eq_refl).
Defined.

(** ** The byte order *)

Lemma lookup_leBytes n v (i : nat) :
  (i < n)%nat → leBytes n v !! i = Some (byte (Z.shiftr v (8 * Z.of_nat i))).
Proof.
  revert v i. induction n as [|n IH]; intros v i Hi; [lia|].
  destruct i as [|i]; cbn [leBytes]; [done|].
  rewrite lookup_cons_ne_0 by done. cbn [pred]. rewrite IH by lia.
  rewrite Z.shiftr_shiftr by lia. do 3 f_equal. lia.
Qed.

Lemma lookup_storedBytes w v (i : nat) :
  0 ≤ v < 2 ^ widthBits w → (i < widthNat w)%nat →
  storedBytes w v !! i = Some (byte (Z.shiftr v (8 * Z.of_nat i))).
Proof.
  destruct w; cbn [storedBytes]; intros Hv Hi;
    try (by apply lookup_leBytes).
  assert (i = 0%nat) as -> by (change (widthNat W8) with 1%nat in Hi; lia).
  cbn. f_equal. unfold byte. change 255 with (Z.ones 8).
  rewrite Z.land_ones by lia. symmetry. by apply Z.mod_small.
Qed.

Lemma offset_add c adr k :
  0 ≤ k → offset c adr + k < 2 ^ uintBits →
  offset c (wrap (adr + k)) = offset c adr + k.
Proof.
  pose proof (offset_nonneg c adr) as Hoff. intros Hk Hlt.
  unfold offset, wrap in *. rewrite Zminus_mod_idemp_l.
  rewrite <- (Z.mod_small ((adr - c_start c) mod 2 ^ uintBits + k)
                (2 ^ uintBits)) by lia.
  rewrite Zplus_mod_idemp_l. f_equal. lia.
Qed.

Lemma lookup_withBytes_in c adr bs (i : nat) :
  inArray c adr (Z.of_nat (length bs)) → (i < length bs)%nat →
  c_mem (withBytes c adr bs) !! (Z.to_nat (offset c adr) + i)%nat = bs !! i.
Proof.
  pose proof (offset_nonneg c adr). unfold inArray. intros Hin Hi. cbn.
  rewrite lookup_app_r by (rewrite length_take; lia).
  rewrite length_take, lookup_app_l by lia. f_equal. lia.
Qed.

(** The bytes of a stored value are in little-endian order: after a write
    of any width, the byte read at [adr + i] is bits [8 i .. 8 i + 7] of
    the value. *)
Theorem stored_byte_order :
  ∀ w c adr val s' ex i,
    Segment.Wr w (SChunk c) adr val = Some (s', ex) →
    0 ≤ val < 2 ^ widthBits w → 0 ≤ i < widthBytes w →
    Z.of_nat (length (c_mem c)) ≤ 2 ^ uintBits →
    Segment.Rd W8 s' (wrap (adr + i))
    = Some (Z.land (Z.shiftr val (8 * i)) 255,
            rdException (wrap (adr + i)) (c_attr c) 1).
Proof.
  intros w c adr val s' ex i Hw Hv Hi Hlen.
  pose proof (offset_nonneg c adr) as Hoff.
  rewrite chunk_Wr in Hw. case_decide as Hin; [|done].
  injection Hw as <- _. cbn [Segment.Rd]. unfold Chunk.Rd8, index.
  fold (offset (withBytes c adr (storedBytes w val)) (wrap (adr + i))).
  rewrite offset_withBytes, offset_add by (unfold inArray in Hin; lia).
  assert (Hl : Z.of_nat (length (storedBytes w val)) = widthBytes w)
    by (by rewrite length_storedBytes, widthNat_bytes).
  replace (Z.to_nat (offset c adr + i))
    with (Z.to_nat (offset c adr) + Z.to_nat i)%nat by lia.
  rewrite lookup_withBytes_in by (rewrite ?Hl; done || lia).
  rewrite lookup_storedBytes
    by (done || (rewrite <- widthNat_bytes in Hi; lia)).
  cbn. by rewrite Z2Nat.id by lia.
Qed.

Lemma stored_byte_order_witness :
  ∃ s', Segment.Wr W32 (SChunk (NewChunk 0 8 AttrRW)) 4 305419896
        = Some (s', 0)
        ∧ Segment.Rd W8 s' (wrap (4 + 1))
          = Some (Z.land (Z.shiftr 305419896 (8 * 1)) 255,
                  rdException (wrap (4 + 1)) AttrRW 1).
Proof.
  eexists. split; [reflexivity|].
  apply (stored_byte_order W32 (NewChunk 0 8 AttrRW) 4 305419896 _ 0 1
           eq_refl); by vm_compute.
Defined.

Lemma leValue_app a b :
  leValue (a ++ b)
  = Z.lor (leValue a) (Z.shiftl (leValue b) (8 * Z.of_nat (length a))).
Proof.
  induction a as [|x a IH].
  - cbn. by rewrite Z.shiftl_0_r.
  - cbn [app leValue length]. rewrite IH, Z.shiftl_lor, Z.shiftl_shiftl by lia.
    rewrite Z.lor_assoc. do 2 f_equal. lia.
Qed.

Lemma bytesAt_split c adr (n1 n2 : nat) :
  offset c adr + Z.of_nat n1 < 2 ^ uintBits →
  bytesAt c adr (n1 + n2)
  = bytesAt c adr n1 ++ bytesAt c (wrap (adr + Z.of_nat n1)) n2.
Proof.
  pose proof (offset_nonneg c adr). intros Hlt. unfold bytesAt.
  rewrite offset_add by lia. rewrite <- take_take_drop, drop_drop.
  do 3 f_equal. lia.
Qed.

Lemma length_bytesAt c adr n :
  inArray c adr (Z.of_nat n) → length (bytesAt c adr n) = n.
Proof.
  pose proof (offset_nonneg c adr). unfold inArray, bytesAt. intros Hin.
  rewrite length_take, length_drop. lia.
Qed.

Lemma inArray_split c adr n1 n2 :
  0 ≤ n1 → 0 ≤ n2 → Z.of_nat (length (c_mem c)) ≤ 2 ^ uintBits → 0 < n2 →
  inArray c adr (n1 + n2) →
  inArray c adr n1 ∧ inArray c (wrap (adr + n1)) n2.
Proof.
  pose proof (offset_nonneg c adr). unfold inArray. intros H1 H2 Hl H3 Hin.
  rewrite offset_add by lia. lia.
Qed.

(** A read is made of the reads of its two halves: the half at the lower
    address gives the low bits and the half above it the high bits. *)
Theorem read_of_halves :
  ∀ c adr,
    Z.of_nat (length (c_mem c)) ≤ 2 ^ uintBits →
    (inArray c adr 2 →
     ∃ lo hi e1 e2 e3,
       Segment.Rd W8 (SChunk c) adr = Some (lo, e1)
       ∧ Segment.Rd W8 (SChunk c) (wrap (adr + 1)) = Some (hi, e2)
       ∧ Segment.Rd W16 (SChunk c) adr = Some (Z.lor lo (Z.shiftl hi 8), e3))
    ∧ (inArray c adr 4 →
       ∃ lo hi e1 e2 e3,
         Segment.Rd W16 (SChunk c) adr = Some (lo, e1)
         ∧ Segment.Rd W16 (SChunk c) (wrap (adr + 2)) = Some (hi, e2)
         ∧ Segment.Rd W32 (SChunk c) adr
           = Some (Z.lor lo (Z.shiftl hi 16), e3))
    ∧ (inArray c adr 8 →
       ∃ lo hi e1 e2 e3,
         Segment.Rd W32 (SChunk c) adr = Some (lo, e1)
         ∧ Segment.Rd W32 (SChunk c) (wrap (adr + 4)) = Some (hi, e2)
         ∧ Segment.Rd W64 (SChunk c) adr
           = Some (Z.lor lo (Z.shiftl hi 32), e3)).
Proof.
  intros c adr Hlen.
  assert (Hgen : ∀ wl w (n : nat),
             widthNat wl = n → widthNat w = (n + n)%nat →
             inArray c adr (widthBytes w) →
             ∃ lo hi e1 e2 e3,
               Segment.Rd wl (SChunk c) adr = Some (lo, e1)
               ∧ Segment.Rd wl (SChunk c) (wrap (adr + widthBytes wl))
                 = Some (hi, e2)
               ∧ Segment.Rd w (SChunk c) adr
                 = Some (Z.lor lo (Z.shiftl hi (8 * widthBytes wl)), e3)).
  { intros wl w n Hwl Hw Hin.
    assert (Hb : widthBytes w = widthBytes wl + widthBytes wl)
      by (rewrite <- !widthNat_bytes, Hwl, Hw; lia).
    assert (Hpos : 0 < widthBytes wl) by (by destruct wl).
    rewrite Hb in Hin.
    destruct (inArray_split c adr (widthBytes wl) (widthBytes wl))
      as [Hin1 Hin2]; [lia|lia|done|done|done|].
    rewrite !chunk_Rd, !decide_True by (by rewrite ?Hb).
    do 5 eexists. repeat split.
    assert (Hn : Z.of_nat n = widthBytes wl)
      by (by rewrite <- Hwl, widthNat_bytes).
    rewrite Hw, Hwl, bytesAt_split, leValue_app.
    - by rewrite length_bytesAt, Hn by (by rewrite Hn).
    - pose proof (offset_nonneg c adr). unfold inArray in Hin. lia. }
  repeat split; intros Hin.
  - exact (Hgen W8 W16 1%nat eq_refl eq_refl Hin).
  - exact (Hgen W16 W32 2%nat eq_refl eq_refl Hin).
  - exact (Hgen W32 W64 4%nat eq_refl eq_refl Hin).
Qed.

Lemma read_of_halves_witness :
  ∃ lo hi e1 e2 e3,
    Segment.Rd W16 (SChunk (mkChunk AttrR 0 3 [1; 2; 3; 4])) 0 = Some (lo, e1)
    ∧ Segment.Rd W16 (SChunk (mkChunk AttrR 0 3 [1; 2; 3; 4])) (wrap (0 + 2))
      = Some (hi, e2)
    ∧ Segment.Rd W32 (SChunk (mkChunk AttrR 0 3 [1; 2; 3; 4])) 0
      = Some (Z.lor lo (Z.shiftl hi 16), e3).
Proof.
  apply (proj1 (proj2 (read_of_halves (mkChunk AttrR 0 3 [1; 2; 3; 4]) 0
                         ltac:(by vm_compute)))).
  by vm_compute.
Defined.

(** ** Values within their width *)

Lemma byte_range v : 0 ≤ byte v < 256.
Proof.
  unfold byte. change 255 with (Z.ones 8). rewrite Z.land_ones by lia.
  apply Z.mod_pos_bound. lia.
Qed.

Lemma leBytes_range n v : Forall (λ b, 0 ≤ b < 256) (leBytes n v).
Proof.
  revert v. induction n as [|n IH]; intros v; cbn [leBytes]; constructor;
    [apply byte_range|apply IH].
Qed.

Lemma storedBytes_range w v :
  0 ≤ v < 2 ^ widthBits w → Forall (λ b, 0 ≤ b < 256) (storedBytes w v).
Proof.
  destruct w; cbn [storedBytes]; intros Hv; try apply leBytes_range.
  constructor; [exact Hv|constructor].
Qed.

Lemma leValue_range bs :
  Forall (λ b, 0 ≤ b < 256) bs →
  0 ≤ leValue bs < 2 ^ (8 * Z.of_nat (length bs)).
Proof.
  induction 1 as [|b bs Hb _ IH]; [by vm_compute|].
  cbn [leValue length].
  replace (8 * Z.of_nat (S (length bs))) with (8 * Z.of_nat (length bs) + 8)
    by lia.
  rewrite Z.pow_add_r by lia.
  assert (Hdisj : Z.land b (Z.shiftl (leValue bs) 8) = 0).
  { apply Z.bits_inj'. intros i Hi. rewrite Z.land_spec, Z.bits_0.
    destruct (Z.ltb_spec i 8).
    - by rewrite Z.shiftl_spec_low, andb_false_r by lia.
    - rewrite (Z.bits_above_log2 b i); [done|lia|].
      destruct (decide (b = 0)) as [->|]; [by cbn; lia|].
      apply Z.lt_le_trans with 8; [|done].
      apply Z.log2_lt_pow2; lia. }
  pose proof (Z.add_lor_land b (Z.shiftl (leValue bs) 8)) as Hadd.
  rewrite Hdisj, Z.add_0_r in Hadd. rewrite Hadd.
  rewrite Z.shiftl_mul_pow2 by lia. lia.
Qed.

(** The memory of a chunk holds bytes, and values keep to their width: a
    new chunk holds bytes, a write of a value of its width leaves bytes,
    and every read of such a chunk returns a value of its width. *)
Theorem values_within_width :
  (∀ start size attr, bytesOK (NewChunk start size attr))
  ∧ (∀ w c adr val c' ex,
       bytesOK c → 0 ≤ val < 2 ^ widthBits w →
       Segment.Wr w (SChunk c) adr val = Some (SChunk c', ex) →
       bytesOK c')
  ∧ (∀ w c adr v ex,
       bytesOK c → Segment.Rd w (SChunk c) adr = Some (v, ex) →
       0 ≤ v < 2 ^ widthBits w)
  ∧ (∀ c adr v ex,
       bytesOK c → Segment.RdIns (SChunk c) adr = Some (v, ex) →
       0 ≤ v < 2 ^ 32).
Proof.
  assert (Hat : ∀ c adr n, bytesOK c →
            Forall (λ b, 0 ≤ b < 256) (bytesAt c adr n)).
  { intros c adr n Hc. unfold bytesAt. by apply Forall_take, Forall_drop. }
  repeat apply conj.
  - intros start size attr. unfold bytesOK. cbn [NewChunk c_mem].
    by apply Forall_replicate.
  - intros w c adr val c' ex Hc Hv. rewrite chunk_Wr.
    case_decide; [|done]. intros [= <- _]. unfold bytesOK. cbn [withBytes c_mem].
    repeat apply Forall_app_2;
      [by apply Forall_take|by apply storedBytes_range|by apply Forall_drop].
  - intros w c adr v ex Hc. rewrite chunk_Rd. case_decide as Hin; [|done].
    intros [= <- _]. pose proof (leValue_range _ (Hat c adr (widthNat w) Hc)).
    rewrite length_bytesAt in * by (by rewrite widthNat_bytes).
    by rewrite widthNat_bytes in *.
  - intros c adr v ex Hc. rewrite chunk_RdIns. case_decide as Hin; [|done].
    intros [= <- _]. pose proof (leValue_range _ (Hat c adr 4%nat Hc)).
    by rewrite length_bytesAt in * by done.
Qed.

Lemma values_within_width_witness :
  Segment.Rd W32 (SChunk (mkChunk AttrR 0 3 [1; 2; 3; 4])) 0
  = Some (67305985, 0)
  ∧ 0 ≤ 67305985 < 2 ^ widthBits W32.
Proof.
  split; [reflexivity|].
  apply (proj1 (proj2 (proj2 values_within_width)) W32
           (mkChunk AttrR 0 3 [1; 2; 3; 4]) 0 67305985 0).
  - by repeat constructor.
  - reflexivity.
Defined.

(** ** Instruction fetch and 32-bit read *)

(** An instruction fetch returns the value of the 32-bit read at the same
    address; the two exceptions agree on [Read] and [Empty], and at an
    address that is a multiple of 2 but not of 4 the read reports [Align]
    and the fetch does not. *)
Theorem fetch_reads_word :
  ∀ s adr v ex,
    Segment.RdIns s adr = Some (v, ex) →
    ∃ ex', Segment.Rd W32 s adr = Some (v, ex')
           ∧ has ExRead ex' = has ExRead ex
           ∧ has ExEmpty ex' = has ExEmpty ex
           ∧ (adr mod 4 = 2 → has ExAlign ex' = true ∧ has ExAlign ex = false).
Proof.
  intros s adr v ex H.
  assert (∃ ex', Segment.Rd W32 s adr = Some (v, ex')) as [ex' H'].
  { destruct s as [c|e].
    - rewrite chunk_RdIns in H. rewrite chunk_Rd.
      change (widthBytes W32) with 4. case_decide; [|done].
      injection H as <- _. by eexists.
    - injection H as <- _. by eexists. }
  exists ex'. split; [done|].
  apply segment_RdIns_ex in H. apply segment_Rd_ex in H'. subst ex ex'.
  destruct (fetchFaults_bits adr (Segment.attr s) (Segment.isEmpty s))
    as (-> & -> & _ & -> & _).
  destruct (readFaults_bits adr (widthBytes W32) (Segment.attr s)
              (Segment.isEmpty s)) as (-> & -> & -> & _).
  repeat split; try done; unfold misaligned; cbn [widthBytes].
  - by rewrite H.
  - replace (adr mod 2) with 0; [done|].
    rewrite <- (Z.mod_mod_divide adr 4 2) by (by exists 2). by rewrite H.
Qed.

Lemma fetch_reads_word_witness :
  ∃ ex', Segment.Rd W32 (SChunk (NewChunk 0 8 AttrRX)) 2
         = Some (MaxUint 32, ex')
         ∧ has ExRead ex' = has ExRead 0
         ∧ has ExEmpty ex' = has ExEmpty 0
         ∧ (2 mod 4 = 2 → has ExAlign ex' = true ∧ has ExAlign 0 = false).
Proof.
  exact (fetch_reads_word (SChunk (NewChunk 0 8 AttrRX)) 2 (MaxUint 32) 0
           eq_refl).
Defined.

(** ** Accesses without a fault *)

Lemma readFaults_zero adr size attr absent :
  readFaults adr size attr absent = 0
  ↔ adr mod size = 0 ∧ Z.land attr AttrR ≠ 0 ∧ absent = false.
Proof.
  unfold readFaults, flag, misaligned, lacks.
  destruct (Z.eqb_spec (adr mod size) 0), (Z.eqb_spec (Z.land attr AttrR) 0),
    absent; cbn; split; (by intros (? & ? & ?)) || done.
Qed.

Lemma writeFaults_zero adr size attr absent :
  writeFaults adr size attr absent = 0
  ↔ adr mod size = 0 ∧ Z.land attr AttrW ≠ 0 ∧ absent = false.
Proof.
  unfold writeFaults, flag, misaligned, lacks.
  destruct (Z.eqb_spec (adr mod size) 0), (Z.eqb_spec (Z.land attr AttrW) 0),
    absent; cbn; split; (by intros (? & ? & ?)) || done.
Qed.

Lemma fetchFaults_zero adr attr absent :
  fetchFaults adr attr absent = 0
  ↔ adr mod 2 = 0 ∧ Z.land attr AttrR ≠ 0 ∧ Z.land attr AttrX ≠ 0
    ∧ absent = false.
Proof.
  unfold fetchFaults, flag, misaligned, lacks.
  destruct (Z.eqb_spec (adr mod 2) 0), (Z.eqb_spec (Z.land attr AttrR) 0),
    (Z.eqb_spec (Z.land attr AttrX) 0), absent; cbn; split;
    (by intros (? & ? & ? & ?)) || done.
Qed.

(** An access returns without any fault exactly when the segment is a
    chunk, the bytes lie in its memory array, the address is aligned to the
    width (to 2 for a fetch) and the attributes grant the access: read for
    a read, write for a write, read and execute for a fetch. *)
Theorem access_without_fault :
  (∀ w s adr,
     (∃ v, Segment.Rd w s adr = Some (v, 0))
     ↔ ∃ c, s = SChunk c ∧ inArray c adr (widthBytes w)
            ∧ adr mod widthBytes w = 0 ∧ Z.land (c_attr c) AttrR ≠ 0)
  ∧ (∀ w s adr val,
       (∃ s', Segment.Wr w s adr val = Some (s', 0))
       ↔ ∃ c, s = SChunk c ∧ inArray c adr (widthBytes w)
              ∧ adr mod widthBytes w = 0 ∧ Z.land (c_attr c) AttrW ≠ 0)
  ∧ (∀ s adr,
       (∃ v, Segment.RdIns s adr = Some (v, 0))
       ↔ ∃ c, s = SChunk c ∧ inArray c adr 4 ∧ adr mod 2 = 0
              ∧ Z.land (c_attr c) AttrR ≠ 0 ∧ Z.land (c_attr c) AttrX ≠ 0).
Proof.
  repeat apply conj.
  - intros w s adr. split.
    + intros [v H]. pose proof (segment_Rd_ex _ _ _ _ _ H) as Hex.
      symmetry in Hex. apply readFaults_zero in Hex as (Ha & Hr & He).
      destruct s as [c|e]; [|done]. exists c. repeat split; try done.
      rewrite chunk_Rd in H. by case_decide.
    + intros (c & -> & Hin & Ha & Hr). rewrite chunk_Rd, decide_True by done.
      rewrite rdException_faults, (proj2 (readFaults_zero _ _ _ _)) by done.
      by eexists.
  - intros w s adr val. split.
    + intros [s' H]. pose proof (segment_Wr_ex _ _ _ _ _ _ H) as Hex.
      symmetry in Hex. apply writeFaults_zero in Hex as (Ha & Hr & He).
      destruct s as [c|e]; [|done]. exists c. repeat split; try done.
      rewrite chunk_Wr in H. by case_decide.
    + intros (c & -> & Hin & Ha & Hr). rewrite chunk_Wr, decide_True by done.
      rewrite wrException_faults, (proj2 (writeFaults_zero _ _ _ _)) by done.
      by eexists.
  - intros s adr. split.
    + intros [v H]. pose proof (segment_RdIns_ex _ _ _ _ H) as Hex.
      symmetry in Hex. apply fetchFaults_zero in Hex as (Ha & Hr & Hx & He).
      destruct s as [c|e]; [|done]. exists c. repeat split; try done.
      rewrite chunk_RdIns in H. by case_decide.
    + intros (c & -> & Hin & Ha & Hr & Hx).
      rewrite chunk_RdIns, decide_True by done.
      rewrite rdInsException_faults, (proj2 (fetchFaults_zero _ _ _))
        by done.
      by eexists.
Qed.

Lemma access_without_fault_witness :
  ∃ v, Segment.RdIns (SChunk (NewChunk 0 8 AttrRX)) 2 = Some (v, 0).
Proof.
  apply (proj2 (proj2 access_without_fault)).
  exists (NewChunk 0 8 AttrRX). by vm_compute.
Defined.

(** ** Exceptions and the contents of memory *)

(** A write changes the contents of a chunk and nothing else: afterwards
    the segment has the same attributes and the same range, and every
    access returns the exception it would have returned before the write,
    and returns or panics as before. *)
Theorem write_keeps_exceptions :
  ∀ w s adr val s' ex,
    Segment.Wr w s adr val = Some (s', ex) →
    Segment.attr s' = Segment.attr s
    ∧ Segment.isEmpty s' = Segment.isEmpty s
    ∧ (∀ a n, Segment.In s' a n = Segment.In s a n)
    ∧ (∀ w' a, snd <$> Segment.Rd w' s' a = snd <$> Segment.Rd w' s a)
    ∧ (∀ a, snd <$> Segment.RdIns s' a = snd <$> Segment.RdIns s a)
    ∧ (∀ w' a v,
         snd <$> Segment.Wr w' s' a v = snd <$> Segment.Wr w' s a v).
Proof.
  intros w s adr val s' ex H. destruct s as [c|e].
  - rewrite chunk_Wr in H. case_decide as Hin; [|done]. injection H as <- _.
    assert (Hl : Z.of_nat (length (storedBytes w val)) = widthBytes w)
      by (by rewrite length_storedBytes, widthNat_bytes).
    assert (Hiff : ∀ a n, inArray (withBytes c adr (storedBytes w val)) a n
                          ↔ inArray c a n).
    { intros a n. unfold inArray.
      rewrite offset_withBytes, length_withBytes; [done|]. by rewrite Hl. }
    repeat split; try done.
    + intros w' a. rewrite !chunk_Rd.
      destruct (decide (inArray c a (widthBytes w'))) as [Hi|Hi].
      * by rewrite decide_True by (by apply Hiff).
      * by rewrite decide_False by (by rewrite Hiff).
    + intros a. rewrite !chunk_RdIns.
      destruct (decide (inArray c a 4)) as [Hi|Hi].
      * by rewrite decide_True by (by apply Hiff).
      * by rewrite decide_False by (by rewrite Hiff).
    + intros w' a v. rewrite !chunk_Wr.
      destruct (decide (inArray c a (widthBytes w'))) as [Hi|Hi].
      * by rewrite decide_True by (by apply Hiff).
      * by rewrite decide_False by (by rewrite Hiff).
  - assert (s' = SEmpty e) as -> by (by destruct w; injection H as <- _).
    done.
Qed.

Lemma write_keeps_exceptions_witness :
  ∃ s', Segment.Wr W32 (SChunk (NewChunk 0 8 AttrR)) 1 19
        = Some (s', Z.lor ExWrite ExAlign)
        ∧ Segment.attr s' = AttrR
        ∧ snd <$> Segment.Rd W64 s' 3
          = snd <$> Segment.Rd W64 (SChunk (NewChunk 0 8 AttrR)) 3.
Proof.
  eexists. split; [reflexivity|].
  destruct (write_keeps_exceptions W32 (SChunk (NewChunk 0 8 AttrR)) 1 19 _
              (Z.lor ExWrite ExAlign) eq_refl) as (Ha & _ & _ & Hr & _).
  split; [exact Ha|exact (Hr W64 3)].
Defined.

(* ===================================================================== *)
(** * The text of an exception *)

Lemma has_testbit k e : 0 ≤ k → has (Z.shiftl 1 k) e = Z.testbit e k.
Proof.
  intros Hk. unfold has. rewrite Z.shiftl_1_l.
  assert (Z.land e (2 ^ k) = if Z.testbit e k then 2 ^ k else 0) as ->.
  { apply Z.bits_inj'. intros i Hi. rewrite Z.land_spec, Z.pow2_bits_eqb by done.
    destruct (Z.eqb_spec k i) as [->|Hne].
    - rewrite andb_true_r. destruct (Z.testbit e i) eqn:E.
      + by rewrite Z.pow2_bits_true.
      + by rewrite Z.bits_0.
    - rewrite andb_false_r. destruct (Z.testbit e k).
      + rewrite Z.pow2_bits_false; done.
      + by rewrite Z.bits_0. }
  destruct (Z.testbit e k); [|done].
  apply negb_true_iff, Z.eqb_neq. 
  pose proof (Z.pow_pos_nonneg 2 k). lia.
Qed.

Lemma land_31_bits e1 e2 :
  Z.land e1 31 = Z.land e2 31
  ↔ ∀ k, 0 ≤ k < 5 → Z.testbit e1 k = Z.testbit e2 k.
Proof.
  change 31 with (Z.ones 5). split.
  - intros H k Hk. apply (f_equal (λ x, Z.testbit x k)) in H.
    rewrite !Z.land_spec, Z.testbit_ones_nonneg in H by lia.
    replace (k <? 5) with true in H by (symmetry; apply Z.ltb_lt; lia).
    by rewrite !andb_true_r in H.
  - intros H. apply Z.bits_inj'. intros i Hi.
    rewrite !Z.land_spec, Z.testbit_ones_nonneg by lia.
    destruct (Z.ltb_spec i 5).
    + by rewrite H by lia.
    + by rewrite !andb_false_r.
Qed.

(** The text of an exception: it is empty exactly when none of the five
    faults is set, two exceptions have the same text exactly when they
    agree on the five fault bits, and bits above [Exec] do not show. *)
Theorem Exception_String_faithful :
  (∀ e, Exception_String e = ""%string ↔ Z.land e 31 = 0)
  ∧ (∀ e1 e2,
       Exception_String e1 = Exception_String e2
       ↔ Z.land e1 31 = Z.land e2 31)
  ∧ (∀ e, Exception_String (Z.land e 31) = Exception_String e).
Proof.
  assert (Hinj : ∀ e1 e2,
             Exception_String e1 = Exception_String e2
             ↔ Z.land e1 31 = Z.land e2 31).
  { intros e1 e2. rewrite land_31_bits. unfold Exception_String.
    unfold ExAlign, ExRead, ExWrite, ExEmpty, ExExec.
    rewrite !has_testbit by lia. split.
    - intros H.
      assert (Z.testbit e1 0 = Z.testbit e2 0 ∧ Z.testbit e1 1 = Z.testbit e2 1
              ∧ Z.testbit e1 2 = Z.testbit e2 2
              ∧ Z.testbit e1 3 = Z.testbit e2 3
              ∧ Z.testbit e1 4 = Z.testbit e2 4) as (H0 & H1 & H2 & H3 & H4).
      { revert H.
        generalize (Z.testbit e1 0), (Z.testbit e1 1), (Z.testbit e1 2),
          (Z.testbit e1 3), (Z.testbit e1 4), (Z.testbit e2 0),
          (Z.testbit e2 1), (Z.testbit e2 2), (Z.testbit e2 3),
          (Z.testbit e2 4).
        intros [] [] [] [] [] [] [] [] [] []; cbn; intros H;
          (discriminate H || done). }
      intros k Hk.
      assert (k = 0 ∨ k = 1 ∨ k = 2 ∨ k = 3 ∨ k = 4)
        as [->|[->|[->|[->| ->]]]] by lia; done.
    - intros H. by rewrite !H by lia. }
  repeat apply conj.
  - intros e. change ""%string with (Exception_String 0).
    rewrite Hinj. by rewrite Z.land_0_l.
  - exact Hinj.
  - intros e. apply Hinj. rewrite <- Z.land_assoc. by rewrite Z.land_diag.
Qed.

Example Exception_String_example :
  Exception_String (Z.lor (Z.lor ExAlign ExWrite) ExEmpty)
  = "align,write,empty"%string.
Proof. reflexivity. Qed.

(* ===================================================================== *)
(** * Further properties of the disassembler *)

(** ** The dump of address and word *)

Lemma string_app_assoc (s1 s2 s3 : string) :
  (s1 +:+ (s2 +:+ s3) = (s1 +:+ s2) +:+ s3)%string.
Proof.
  induction s1 as [|c s1 IH]; [done|].
  change (String c (s1 +:+ (s2 +:+ s3)) = String c ((s1 +:+ s2) +:+ s3))%string.
  by f_equal.
Qed.

Lemma string_length_app (s1 s2 : string) :
  String.length (s1 +:+ s2) = (String.length s1 + String.length s2)%nat.
Proof.
  induction s1 as [|c s1 IH]; [done|].
  change (S (String.length (s1 +:+ s2))
          = S (String.length s1 + String.length s2)).
  by f_equal.
Qed.

Lemma hex_acc k v acc : hex k v acc = (hex k v "" +:+ acc)%string.
Proof.
  revert v acc. induction k as [|k IH]; intros v acc; [done|].
  cbn [hex]. rewrite IH, (IH _ (String _ "")).
  by rewrite <- string_app_assoc.
Qed.

Lemma length_hex k v acc :
  String.length (hex k v acc) = (k + String.length acc)%nat.
Proof.
  revert v acc. induction k as [|k IH]; intros v acc; [done|].
  cbn [hex]. rewrite IH. cbn. lia.
Qed.

Lemma hexDigit_inj d1 d2 :
  0 ≤ d1 < 16 → 0 ≤ d2 < 16 → hexDigit d1 = hexDigit d2 → d1 = d2.
Proof.
  intros H1 H2.
  assert (∀ d, 0 ≤ d < 16 →
            d = 0 ∨ d = 1 ∨ d = 2 ∨ d = 3 ∨ d = 4 ∨ d = 5 ∨ d = 6 ∨ d = 7
            ∨ d = 8 ∨ d = 9 ∨ d = 10 ∨ d = 11 ∨ d = 12 ∨ d = 13 ∨ d = 14
            ∨ d = 15) as Hc by lia.
  destruct (Hc d1 H1) as [->|[->|[->|[->|[->|[->|[->|[->|[->|[->|[->|[->|[->|
    [->|[->| ->]]]]]]]]]]]]]]];
  destruct (Hc d2 H2) as [->|[->|[->|[->|[->|[->|[->|[->|[->|[->|[->|[->|[->|
    [->|[->| ->]]]]]]]]]]]]]]]; vm_compute; intros H; done || discriminate H.
Qed.

Lemma hex_inj k v1 v2 acc1 acc2 :
  0 ≤ v1 < 16 ^ Z.of_nat k → 0 ≤ v2 < 16 ^ Z.of_nat k →
  hex k v1 acc1 = hex k v2 acc2 → v1 = v2 ∧ acc1 = acc2.
Proof.
  revert v1 v2 acc1 acc2. induction k as [|k IH]; intros v1 v2 acc1 acc2.
  - cbn. intros ? ? ->. split; [lia|done].
  - rewrite Nat2Z.inj_succ, Z.pow_succ_r by lia. intros H1 H2. cbn [hex].
    intros H. apply IH in H as [Hq H];
      [|split; [apply Z.div_pos|apply Z.div_lt_upper_bound]; lia..].
    injection H as Hd ->. split; [|done].
    apply hexDigit_inj in Hd; [|by apply Z.mod_pos_bound..].
    rewrite (Z.div_mod v1 16), (Z.div_mod v2 16) by lia. by rewrite Hq, Hd.
Qed.

(** The dump is 18 characters long, and the address and the word can be
    read back from it: two dumps are equal only for the same 32-bit address
    and the same 32-bit word. *)
Theorem daDump_injective :
  ∀ adr ins adr' ins',
    0 ≤ adr < 2 ^ 32 → 0 ≤ ins < 2 ^ 32 →
    0 ≤ adr' < 2 ^ 32 → 0 ≤ ins' < 2 ^ 32 →
    String.length (daDump adr ins) = 18%nat
    ∧ (daDump adr ins = daDump adr' ins' → adr = adr' ∧ ins = ins').
Proof.
  intros adr ins adr' ins' Ha Hi Ha' Hi'. unfold daDump. split.
  - by rewrite !string_length_app, !length_hex.
  - rewrite <- !hex_acc. intros H.
    apply hex_inj in H as [-> H]; [|done..]. split; [done|].
    apply (inj (String.append ": ")) in H.
    by apply hex_inj in H as [-> _].
Qed.

Lemma daDump_injective_witness :
  String.length (daDump 4096 19) = 18%nat
  ∧ (daDump 4096 19 = daDump 4096 19 → 4096 = 4096 ∧ 19 = 19).
Proof. apply (daDump_injective 4096 19 4096 19); by vm_compute. Defined.

(** ** Tables put together *)

Lemma scan_app t1 t2 adr ins :
  scan (t1 ++ t2) adr ins
  = if existsb (matches ins) t1 then scan t1 adr ins else scan t2 adr ins.
Proof.
  induction t1 as [|e t1 IH]; [done|]. cbn [app scan existsb].
  by destruct (matches ins e).
Qed.

Lemma Disassemble_ext Read32 nm1 nm2 t1 t2 adr st :
  scan t1 adr (Read32 adr) = scan t2 adr (Read32 adr) →
  Disassemble Read32 (mkISA nm1 t1) adr st
  = Disassemble Read32 (mkISA nm2 t2) adr st.
Proof. unfold Disassemble. cbn [instruction]. by intros ->. Qed.

(** Entries appended to a table never change the disassembly of a word
    that an entry of the table matches; a word that no entry of the table
    matches is disassembled by the appended entries alone. *)
Theorem appended_entries :
  ∀ (Read32 : Z → Z) nm t1 t2 adr st,
    ((∃ e, e ∈ t1 ∧ Z.land (Read32 adr) (mask e) = val e) →
     Disassemble Read32 (mkISA nm (t1 ++ t2)) adr st
     = Disassemble Read32 (mkISA nm t1) adr st)
    ∧ ((∀ e, e ∈ t1 → Z.land (Read32 adr) (mask e) ≠ val e) →
       Disassemble Read32 (mkISA nm (t1 ++ t2)) adr st
       = Disassemble Read32 (mkISA nm t2) adr st).
Proof.
  intros Read32 nm t1 t2 adr st. split.
  - intros (e & He & Hm). apply Disassemble_ext. rewrite scan_app.
    replace (existsb (matches (Read32 adr)) t1) with true; [done|].
    symmetry. apply existsb_exists. exists e.
    by rewrite <- list_elem_of_In, matches_true.
  - intros Hno. apply Disassemble_ext. rewrite scan_app.
    replace (existsb (matches (Read32 adr)) t1) with false; [done|].
    symmetry. apply not_true_iff_false. intros Hex.
    apply existsb_exists in Hex as (e & He & Hm).
    apply (Hno e); [by apply list_elem_of_In|by apply matches_true].
Qed.

Lemma appended_entries_witness :
  Disassemble (λ _, 19) (mkISA "rv32i"
      ([mkInsInfo "addi" 19 28799 (mkDecoder daNone)]
         ++ [mkInsInfo "op-imm" 19 127 (mkDecoder daNone)])) 0 None
  = Disassemble (λ _, 19) (mkISA "rv32i"
      [mkInsInfo "addi" 19 28799 (mkDecoder daNone)]) 0 None.
Proof.
  apply (proj1 (appended_entries (λ _, 19) "rv32i"
      [mkInsInfo "addi" 19 28799 (mkDecoder daNone)]
      [mkInsInfo "op-imm" 19 127 (mkDecoder daNone)] 0 None)).
  eexists. split; [by left|reflexivity].
Defined.

(** When at most one entry of the table matches the word, the order of
    the table does not matter: every permutation of the table gives the
    same disassembly. *)
Theorem order_of_unambiguous_table :
  ∀ (Read32 : Z → Z) nm t t' adr st,
    t ≡ₚ t' →
    (∀ e1 e2, e1 ∈ t → e2 ∈ t →
       Z.land (Read32 adr) (mask e1) = val e1 →
       Z.land (Read32 adr) (mask e2) = val e2 → e1 = e2) →
    Disassemble Read32 (mkISA nm t') adr st
    = Disassemble Read32 (mkISA nm t) adr st.
Proof.
  intros Read32 nm t t' adr st Hp Huniq. apply Disassemble_ext.
  rewrite !scan_find. set (ins := Read32 adr) in *.
  destruct (List.find (matches ins) t) as [e|] eqn:E;
    destruct (List.find (matches ins) t') as [e'|] eqn:E'; [| | |done].
  - apply find_some in E as [He Hm], E' as [He' Hm'].
    apply list_elem_of_In in He, He'. apply matches_true in Hm, Hm'.
    rewrite <- Hp in He'. by rewrite (Huniq e e' He He' Hm Hm').
  - apply find_some in E as [He Hm]. apply list_elem_of_In in He.
    rewrite Hp in He. apply list_elem_of_In in He.
    by rewrite (find_none _ _ E' e He) in Hm.
  - apply find_some in E' as [He' Hm']. apply list_elem_of_In in He'.
    rewrite <- Hp in He'. apply list_elem_of_In in He'.
    by rewrite (find_none _ _ E e' He') in Hm'.
Qed.

Lemma order_of_unambiguous_table_witness :
  Disassemble (λ _, 19) (mkISA "rv32i"
      [mkInsInfo "addi" 19 28799 (mkDecoder daNone);
       mkInsInfo "lui" 55 127 (mkDecoder daNone)]) 0 None
  = Disassemble (λ _, 19) (mkISA "rv32i"
      [mkInsInfo "lui" 55 127 (mkDecoder daNone);
       mkInsInfo "addi" 19 28799 (mkDecoder daNone)]) 0 None.
Proof.
  apply order_of_unambiguous_table.
  - apply Permutation_swap.
  - intros e1 e2 H1 H2.
    apply elem_of_cons in H1 as [->|H1], H2 as [->|H2];
      try apply list_elem_of_singleton in H1 as ->;
      try apply list_elem_of_singleton in H2 as ->;
      vm_compute; intros; done.
Defined.

(* ===================================================================== *)
(** * The dump loader *)

(** ** Hexadecimal numbers *)

Lemma hexDigit_cases d :
  0 ≤ d < 16 →
  d = 0 ∨ d = 1 ∨ d = 2 ∨ d = 3 ∨ d = 4 ∨ d = 5 ∨ d = 6 ∨ d = 7 ∨ d = 8
  ∨ d = 9 ∨ d = 10 ∨ d = 11 ∨ d = 12 ∨ d = 13 ∨ d = 14 ∨ d = 15.
Proof. lia. Qed.

Lemma digitOf_hexDigit d :
  0 ≤ d < 16 → digitOf (byteOf (hexDigit d)) = Some d.
Proof.
  intros Hd.
  destruct (hexDigit_cases d Hd)
    as [->|[->|[->|[->|[->|[->|[->|[->|[->|[->|[->|[->|[->|[->|[->| ->]]]]]]]]]]]]]]];
    reflexivity.
Qed.

Lemma cutoff_16 : maxUint64 / 16 + 1 = 2 ^ 60.
Proof. reflexivity. Qed.

Lemma maxVal_bits bitSize :
  1 ≤ bitSize ≤ 64 →
  wrap64 (wrap64 (Z.shiftl 1 bitSize) - 1) = 2 ^ bitSize - 1.
Proof.
  intros Hb. rewrite Z.shiftl_1_l. unfold wrap64.
  destruct (decide (bitSize = 64)) as [->|Hne]; [reflexivity|].
  assert (2 ^ bitSize ≤ 2 ^ 63) by (apply Z.pow_le_mono_r; lia).
  assert (0 < 2 ^ bitSize) by (apply Z.pow_pos_nonneg; lia).
  rewrite (Z.mod_small (2 ^ bitSize)) by lia.
  apply Z.mod_small. lia.
Qed.

(** The loop reads the digits that [hex] prints. *)
Lemma parseDigits_hex k v acc n maxVal :
  0 ≤ v < 16 ^ Z.of_nat k → 0 ≤ n →
  n * 16 ^ Z.of_nat k + v ≤ maxVal → maxVal ≤ maxUint64 →
  parseDigits 16 (2 ^ 60) maxVal (hex k v acc) n
  = parseDigits 16 (2 ^ 60) maxVal acc (n * 16 ^ Z.of_nat k + v).
Proof.
  revert v acc n. induction k as [|k IH]; intros v acc n Hv Hn Hmax Hle.
  - cbn [hex]. f_equal. change (16 ^ Z.of_nat 0) with 1 in *. lia.
  - rewrite Nat2Z.inj_succ, Z.pow_succ_r in * by lia. cbn [hex].
    pose proof (Z.div_mod v 16 ltac:(lia)) as Hdm.
    pose proof (Z.mod_pos_bound v 16 ltac:(lia)) as Hd.
    assert (0 ≤ v / 16 < 16 ^ Z.of_nat k)
      by (split; [apply Z.div_pos|apply Z.div_lt_upper_bound]; lia).
    assert (0 ≤ n * 16 ^ Z.of_nat k) by (apply Z.mul_nonneg_nonneg; lia).
    rewrite IH by (done || nia).
    set (n' := n * 16 ^ Z.of_nat k + v / 16) in *.
    assert (n' * 16 + v mod 16 = n * (16 * 16 ^ Z.of_nat k) + v) as Hn'
      by (unfold n'; lia).
    unfold maxUint64 in Hle.
    cbn [parseDigits]. rewrite digitOf_hexDigit by done.
    replace (16 <=? v mod 16) with false by (symmetry; apply Z.leb_gt; lia).
    replace (2 ^ 60 <=? n') with false by (symmetry; apply Z.leb_gt; lia).
    cbn zeta. unfold wrap64.
    rewrite (Z.mod_small (n' * 16)) by lia.
    rewrite (Z.mod_small (n' * 16 + v mod 16)) by lia.
    replace (n' * 16 + v mod 16 <? n' * 16) with false
      by (symmetry; apply Z.ltb_ge; lia).
    replace (maxVal <? n' * 16 + v mod 16) with false
      by (symmetry; apply Z.ltb_ge; lia).
    cbn [orb]. by rewrite Hn'.
Qed.

Lemma hex_nonempty k v acc : (1 ≤ k)%nat → hex k v acc ≠ EmptyString.
Proof.
  intros Hk H. apply (f_equal String.length) in H.
  rewrite length_hex in H. cbn in H. lia.
Qed.

(** [ParseUint] reads back what [hex] prints (the "%0kx" of the dump): a
    number of [k >= 1] hexadecimal digits that fits [bitSize] bits is
    parsed without error to itself. *)
Lemma ParseUint_hex :
  ∀ (k : nat) v bitSize,
    (1 ≤ k)%nat → 0 ≤ v < 16 ^ Z.of_nat k →
    1 ≤ bitSize ≤ 64 → v < 2 ^ bitSize →
    ParseUint (hex k v "") 16 bitSize = (v, None).
Proof.
  intros k v bitSize Hk Hv Hb Hfit. unfold ParseUint.
  destruct (hex k v "") eqn:E; [by apply hex_nonempty in E|].
  rewrite <- E. cbn zeta. rewrite cutoff_16, maxVal_bits by done.
  rewrite parseDigits_hex; [done|done|done|lia|].
  assert (2 ^ bitSize ≤ 2 ^ 64) by (apply Z.pow_le_mono_r; lia).
  unfold maxUint64. lia.
Qed.

Lemma parseDigits_bound base cutoff maxVal s n v :
  0 ≤ n ≤ maxVal →
  parseDigits base cutoff maxVal s n = (v, None) → 0 ≤ v ≤ maxVal.
Proof.
  revert n. induction s as [|a s IH]; intros n Hn; cbn [parseDigits].
  - by intros [= <-].
  - destruct (digitOf (byteOf a)) as [d|]; [|done].
    destruct (base <=? d); [done|]. destruct (cutoff <=? n); [done|].
    cbn zeta.
    destruct ((wrap64 (wrap64 (n * base) + d) <? wrap64 (n * base))
              || (maxVal <? wrap64 (wrap64 (n * base) + d))) eqn:E; [done|].
    apply orb_false_iff in E as [_ E]. apply Z.ltb_ge in E.
    apply IH. split; [|done]. apply Z.mod_pos_bound. lia.
Qed.

(** A number that [ParseUint] returns without error fits the bit size, so
    the conversions [uint32(adr)] and [uint16(ins)] of the loader lose
    nothing; the empty string is a syntax error. *)
Lemma ParseUint_fits :
  ∀ s base bitSize v,
    1 ≤ bitSize ≤ 64 →
    ParseUint s base bitSize = (v, None) →
    0 ≤ v < 2 ^ bitSize ∧ s ≠ ""%string.
Proof.
  intros s base bitSize v Hb. unfold ParseUint.
  destruct s as [|a s]; [done|]. cbn zeta. rewrite maxVal_bits by done.
  intros H. apply parseDigits_bound in H.
  - split; [lia|done].
  - assert (0 < 2 ^ bitSize) by (apply Z.pow_pos_nonneg; lia). lia.
Qed.

(** ** Trimming *)

Lemma hexDigit_plain d :
  hexDigit d ≠ ":"%char ∧ hexDigit d ≠ "<"%char ∧ hexDigit d ≠ ">"%char
  ∧ hexDigit d ≠ "#"%char.
Proof.
  unfold hexDigit. generalize (Z.to_nat d). intros n.
  do 17 (destruct n as [|n]; [by vm_compute|]). by vm_compute.
Qed.

Lemma allChars_hex (P : Ascii.ascii → Prop) k v acc :
  (∀ d, P (hexDigit d)) → allChars P acc → allChars P (hex k v acc).
Proof.
  intros HP. revert v acc. induction k as [|k IH]; intros v acc Hacc; [done|].
  cbn [hex]. apply IH. by split.
Qed.

Lemma trimLeft_id cutset s : allChars (λ a, a ∉ cutset) s → trimLeft cutset s = s.
Proof. destruct s as [|a s]; [done|]. intros [Ha _]. cbn. by rewrite bool_decide_false. Qed.

Lemma trimRight_id cutset s :
  allChars (λ a, a ∉ cutset) s → trimRight cutset s = s.
Proof.
  induction s as [|a s IH]; [done|]. intros [Ha Hs]. cbn [trimRight].
  rewrite IH by done. destruct s; [|done]. by rewrite bool_decide_false.
Qed.

Lemma trimRight_last cutset s c :
  allChars (λ a, a ∉ cutset) s → c ∈ cutset →
  trimRight cutset (s +:+ String c "") = s.
Proof.
  intros Hs Hc. induction s as [|a s IH].
  - change (trimRight cutset (String c "") = ""%string). cbn.
    by rewrite bool_decide_true.
  - destruct Hs as [Ha Hs].
    change (trimRight cutset (String a (s +:+ String c "")) = String a s).
    cbn [trimRight]. rewrite IH by done. destruct s; [|done].
    by rewrite bool_decide_false.
Qed.

Lemma Trim_hex_colon k v : Trim (hex k v ":") [":"%char] = hex k v "".
Proof.
  assert (allChars (λ a, a ∉ [":"%char]) (hex k v "")) as Hall.
  { apply allChars_hex; [|done]. intros d Hd.
    apply list_elem_of_singleton in Hd. by destruct (hexDigit_plain d). }
  unfold Trim. rewrite (hex_acc k v ":").
  rewrite trimRight_last by (done || by left). by apply trimLeft_id.
Qed.

Lemma Trim_hex_symbol k v :
  Trim (hex k v "") ["<"%char; ">"%char; ":"%char] = hex k v "".
Proof.
  assert (allChars (λ a, a ∉ ["<"%char; ">"%char; ":"%char]) (hex k v ""))
    as Hall.
  { apply allChars_hex; [|done]. intros d Hd.
    destruct (hexDigit_plain d) as (H1 & H2 & H3 & _).
    apply elem_of_cons in Hd as [Hd|Hd]; [done|].
    apply elem_of_cons in Hd as [Hd|Hd]; [done|].
    by apply list_elem_of_singleton in Hd. }
  unfold Trim. rewrite trimRight_id by done. by apply trimLeft_id.
Qed.

(** ** The reference disassembly *)

Lemma reference_plain asm rest s :
  Forall plainField asm →
  rest = [] ∨ (∃ x r, rest = x :: r ∧ commentField x) →
  reference (asm ++ rest) s = Some (s ++ asm).
Proof.
  intros Hasm Hrest. revert s.
  induction Hasm as [|x asm Hx _ IH]; intros s.
  - rewrite app_nil_r. destruct Hrest as [->|(x & r & -> & Hx)]; [done|].
    destruct x as [|c x]; [done|]. cbn in *. by rewrite bool_decide_true.
  - destruct x as [|c x]; [done|]. destruct Hx as [H1 H2].
    cbn [app reference]. rewrite bool_decide_false by (by intros [|]).
    rewrite IH. by rewrite <- app_assoc.
Qed.

(** ** Lines of the dump *)

Section LoadDumpProperties.

Context {Memory : Type}.
Variable AddSymbol : Memory → Z → string → Memory.
Variable Wr16 : Memory → Z → Z → Memory.
Variable Wr32 : Memory → Z → Z → Memory.
Variable AddDisassembly : Memory → Z → string → Memory.

Abbreviation loadLine :=
  (loadLine Memory AddSymbol Wr16 Wr32 AddDisassembly).
Abbreviation loadLines :=
  (loadLines Memory AddSymbol Wr16 Wr32 AddDisassembly).

Lemma loadLine_Failed i field m m' e :
  loadLine i field m = Failed m' e → m' = m ∧ errorLine e = Some (i + 1).
Proof.
  unfold loadLine. intros H.
  repeat (case_match; simplify_eq; try done).
Qed.

Lemma loadLines_app i l1 l2 m :
  loadLines i (l1 ++ l2) m
  = match loadLines i l1 m with
    | Loaded m' => loadLines (i + Z.of_nat (length l1)) l2 m'
    | other => other
    end.
Proof.
  revert i m. induction l1 as [|f l1 IH]; intros i m.
  - cbn. by rewrite Z.add_0_r.
  - cbn [app loadLines length]. destruct (loadLine i f m); [|done..].
    rewrite IH. destruct (loadLines (i + 1) l1 m0); [|done..].
    f_equal. lia.
Qed.

Lemma loadLine_Loaded_line i j field m m' :
  loadLine i field m = Loaded m' → loadLine j field m = Loaded m'.
Proof.
  unfold loadLine. intros H.
  repeat (case_match; simplify_eq; try done).
Qed.

Lemma loadLine_short i field m :
  (length field ≤ 1)%nat → loadLine i field m = Loaded m.
Proof. destruct field as [|f0 [|f1 rest]]; cbn; done || lia. Qed.

Lemma loadLines_Failed i lines m m' e :
  loadLines i lines m = Failed m' e →
  ∃ l1 bad l2,
    lines = l1 ++ bad :: l2
    ∧ loadLines i l1 m = Loaded m'
    ∧ loadLine (i + Z.of_nat (length l1)) bad m' = Failed m' e
    ∧ errorLine e = Some (i + Z.of_nat (length l1) + 1).
Proof.
  revert i m. induction lines as [|f lines IH]; intros i m; [done|].
  cbn [loadLines]. destruct (loadLine i f m) as [m1|m1 e1|] eqn:E; [| |done].
  - intros H. apply IH in H as (l1 & bad & l2 & -> & H1 & H2 & H3).
    exists (f :: l1), bad, l2. cbn [loadLines length app]. rewrite E.
    replace (i + Z.of_nat (S (length l1)))
      with (i + 1 + Z.of_nat (length l1)) by lia.
    repeat split; done || lia.
  - intros [= -> ->]. destruct (loadLine_Failed _ _ _ _ _ E) as [-> He].
    exists [], f, lines. cbn [length app loadLines].
    rewrite Z.add_0_r. repeat split; done || lia.
Qed.

Lemma loadLines_filter i j lines m m' :
  loadLines i lines m = Loaded m'
  ↔ loadLines j (filter (λ f, (2 ≤ length f)%nat) lines) m = Loaded m'.
Proof.
  revert i j m. induction lines as [|f lines IH]; intros i j m; [done|].
  cbn [loadLines]. rewrite filter_cons. case_decide as Hf.
  - cbn [loadLines].
    destruct (loadLine i f m) as [m1|m1 e1|] eqn:E.
    + rewrite (loadLine_Loaded_line _ j _ _ _ E). apply IH.
    + destruct (loadLine j f m) as [m2|m2 e2|] eqn:E'; [|done..].
      by rewrite (loadLine_Loaded_line _ i _ _ _ E') in E.
    + destruct (loadLine j f m) as [m2|m2 e2|] eqn:E'; [|done..].
      by rewrite (loadLine_Loaded_line _ i _ _ _ E') in E.
  - rewrite loadLine_short by lia. apply IH.
Qed.

End LoadDumpProperties.

(** When the load returns an error, either the file could not be read,
    the error is that of the read and the memory is untouched; or the
    lines before the failing one have taken effect and stay in memory, the
    failing line has had no effect, the lines after it are not looked at,
    and the error carries the number of the failing line, counted from
    1. *)
Theorem load_failure :
  ∀ (M : Type) (AddSymbol : M → Z → string → M) (Wr16 Wr32 : M → Z → Z → M)
    (AddDisassembly : M → Z → string → M) (m : M) file m' e,
    loadDump M AddSymbol Wr16 Wr32 AddDisassembly m file = Failed m' e →
    (∃ err, file = ReadError err ∧ e = ErrReadFile err ∧ m' = m)
    ∨ (∃ l1 bad l2,
         file = Contents (l1 ++ bad :: l2)
         ∧ loadDump M AddSymbol Wr16 Wr32 AddDisassembly m (Contents l1)
           = Loaded m'
         ∧ loadLine M AddSymbol Wr16 Wr32 AddDisassembly
             (Z.of_nat (length l1)) bad m' = Failed m' e
         ∧ errorLine e = Some (Z.of_nat (length l1) + 1)).
Proof.
  intros M AddSymbol Wr16 Wr32 AddDisassembly m [err|lines] m' e H.
  - left. exists err. by injection H as <- <-.
  - right. cbn [loadDump] in H.
    apply loadLines_Failed in H as (l1 & bad & l2 & -> & H2 & H3 & H4).
    exists l1, bad, l2. by rewrite Z.add_0_l in *.
Qed.

(** The second line has an instruction of three digits: the load fails at
    line 2, and the write of the first line is in memory. *)
Lemma load_failure_witness :
  (∃ err,
     Contents [["0:"; "00000013"; "nop"]; ["4:"; "123"; "ret"];
               ["8:"; "00a00513"; "li"]]%string = ReadError err
     ∧ ErrInsLength 2 = ErrReadFile err ∧ [(0, 19)] = @nil (Z * Z))
  ∨ (∃ l1 bad l2,
       Contents [["0:"; "00000013"; "nop"]; ["4:"; "123"; "ret"];
                 ["8:"; "00a00513"; "li"]]%string
       = Contents (l1 ++ bad :: l2)
       ∧ loadDump (list (Z * Z)) (λ m _ _, m) (λ m a v, m ++ [(a, v)])
           (λ m a v, m ++ [(a, v)]) (λ m _ _, m) [] (Contents l1)
         = Loaded [(0, 19)]
       ∧ loadLine (list (Z * Z)) (λ m _ _, m) (λ m a v, m ++ [(a, v)])
           (λ m a v, m ++ [(a, v)]) (λ m _ _, m) (Z.of_nat (length l1)) bad
           [(0, 19)] = Failed [(0, 19)] (ErrInsLength 2)
       ∧ errorLine (ErrInsLength 2) = Some (Z.of_nat (length l1) + 1)).
Proof.
  apply (load_failure (list (Z * Z)) (λ m _ _, m) (λ m a v, m ++ [(a, v)])
           (λ m a v, m ++ [(a, v)]) (λ m _ _, m) []).
  reflexivity.
Defined.

(** Lines with fewer than two fields (blank lines, one-word headers) have
    no effect: a load succeeds with the same memory with them as without
    them. *)
Theorem short_lines_skipped :
  ∀ (M : Type) (AddSymbol : M → Z → string → M) (Wr16 Wr32 : M → Z → Z → M)
    (AddDisassembly : M → Z → string → M) (m : M) lines m',
    loadDump M AddSymbol Wr16 Wr32 AddDisassembly m (Contents lines)
    = Loaded m'
    ↔ loadDump M AddSymbol Wr16 Wr32 AddDisassembly m
        (Contents (filter (λ f, (2 ≤ length f)%nat) lines)) = Loaded m'.
Proof. intros. apply loadLines_filter. Qed.

Lemma short_lines_skipped_witness :
  loadDump (list (Z * Z)) (λ m _ _, m) (λ m a v, m ++ [(a, v)])
    (λ m a v, m ++ [(a, v)]) (λ m _ _, m) []
    (Contents (filter (λ f, (2 ≤ length f)%nat)
                 [[]; ["0:"; "00000013"; "nop"]; ["..."]]%string))
  = Loaded [(0, 19)].
Proof.
  apply (proj1 (short_lines_skipped (list (Z * Z)) (λ m _ _, m)
                  (λ m a v, m ++ [(a, v)]) (λ m a v, m ++ [(a, v)])
                  (λ m _ _, m) []
                  [[]; ["0:"; "00000013"; "nop"]; ["..."]]%string
                  [(0, 19)])).
  reflexivity.
Defined.

Lemma uint32_small x : 0 ≤ x < 2 ^ 32 → uint32 x = x.
Proof. apply Z.mod_small. Qed.

Lemma uint16_small x : 0 ≤ x < 2 ^ 16 → uint16 x = x.
Proof. apply Z.mod_small. Qed.

(** A line in the format of the dump, "%08x:" for the address, then the
    word in 8 (or 4) hexadecimal digits, then the assembly text, is
    loaded as the 32-bit (or 16-bit) write of the word at the address
    followed by the reference disassembly: the text fields joined by one
    space, up to the first field that starts with '#' or '<'.  Without
    assembly text the word is taken for a symbol and nothing is
    written. *)
Theorem dump_line_loaded :
  ∀ (M : Type) (AddSymbol : M → Z → string → M) (Wr16 Wr32 : M → Z → Z → M)
    (AddDisassembly : M → Z → string → M) (m : M) i adr ins asm rest,
    0 ≤ adr < 2 ^ 32 →
    asm ≠ [] → Forall plainField asm →
    rest = [] ∨ (∃ x r, rest = x :: r ∧ commentField x) →
    (0 ≤ ins < 2 ^ 32 →
     loadLine M AddSymbol Wr16 Wr32 AddDisassembly i
       (hex 8 adr ":" :: hex 8 ins "" :: asm ++ rest) m
     = Loaded (AddDisassembly (Wr32 m adr ins) adr (Join asm " ")))
    ∧ (0 ≤ ins < 2 ^ 16 →
       loadLine M AddSymbol Wr16 Wr32 AddDisassembly i
         (hex 8 adr ":" :: hex 4 ins "" :: asm ++ rest) m
       = Loaded (AddDisassembly (Wr16 m adr ins) adr (Join asm " ")))
    ∧ (0 ≤ ins < 2 ^ 32 →
       loadLine M AddSymbol Wr16 Wr32 AddDisassembly i
         [hex 8 adr ":"; hex 8 ins ""] m
       = Loaded (AddSymbol m adr (hex 8 ins ""))).
Proof.
  intros M AddSymbol Wr16 Wr32 AddDisassembly m i adr ins asm rest
    Hadr Hne Hasm Hrest.
  assert (Hp : ParseUint (Trim (hex 8 adr ":") [":"%char]) 16 32
               = (adr, None)).
  { rewrite Trim_hex_colon. apply ParseUint_hex; [lia|exact Hadr|lia|lia]. }
  pose proof (reference_plain asm rest [] Hasm Hrest) as Href.
  destruct asm as [|a asm]; [done|]. cbn [app] in *.
  repeat split; intros Hins; unfold loadLine; rewrite Hp.
  - rewrite length_hex. cbn [String.length Nat.add Z.of_nat Z.eqb].
    change (Z.of_nat 8 =? 4) with false. change (Z.of_nat 8 =? 8) with true.
    cbn match. rewrite ParseUint_hex; [|lia|exact Hins|lia|lia].
    by rewrite Href, !uint32_small by done.
  - rewrite length_hex. change (Z.of_nat (4 + String.length "") =? 4) with true.
    cbn match. rewrite ParseUint_hex; [|lia|exact Hins|lia|lia].
    by rewrite Href, uint32_small, uint16_small by done.
  - by rewrite Trim_hex_symbol, uint32_small by done.
Qed.

Lemma dump_line_loaded_witness :
  loadLine (list (Z * Z)) (λ m _ _, m) (λ m a v, m ++ [(a, v)])
    (λ m a v, m ++ [(a, v)]) (λ m _ _, m) 0
    (hex 8 8 ":" :: hex 8 10487059 "" :: ["li"; "a0,10"] ++ ["#"; "ten"])%string
    []
  = Loaded [(8, 10487059)].
Proof.
  apply (proj1 (dump_line_loaded (list (Z * Z)) (λ m _ _, m)
                  (λ m a v, m ++ [(a, v)]) (λ m a v, m ++ [(a, v)])
                  (λ m _ _, m) [] 0 8 10487059 ["li"; "a0,10"]%string
                  ["#"; "ten"]%string ltac:(by vm_compute) ltac:(done)
                  ltac:(by repeat constructor)
                  ltac:(right; eexists _, _; split; [done|by left])));
    by vm_compute.
Defined.
